(** * Intensity fluctuation correction (imars3d.backend.corrections)

    A shallow embedding of
    [src/imars3d/backend/corrections/intensity_fluctuation_correction.py]:
    the per-image adaptive correction [intensity_fluctuation_correction_skimage]
    and the dispatcher [_intensity_fluctuation_correction], with the
    properties of the air-region detection, of the correction factor and of
    the shared-memory life cycle. *)

From Stdlib Require Import ZArith NArith Lia String Ascii.
From Stdlib Require Import Floats.PrimFloat Numbers.Cyclic.Int63.Uint63.
From stdpp Require Import base option list gmap.

Set Default Proof Using "Type".

(** ** Python exceptions and fallible computations *)

Inductive exn : Type :=
  | ValueError
  | IndexError
  | TypeError.

Inductive result (X : Type) : Type :=
  | Ok (x : X)
  | Err (e : exn).
Arguments Ok {X} x.
Arguments Err {X} e.

Definition bind {X Y} (r : result X) (k : X → result Y) : result Y :=
  match r with
  | Ok x => k x
  | Err e => Err e
  end.

Notation "x <- r ;; k" := (bind r (fun x => k))
  (at level 100, r at next level, right associativity).

#[global] Instance result_fmap : FMap result := λ X Y f r,
  match r with
  | Ok x => Ok (f x)
  | Err e => Err e
  end.

Definition is_Err {X} (r : result X) : Prop := ∃ e, r = Err e.

(** ** numpy arrays

    An array is its shape and its elements in row-major (C) order, which is
    the layout [np.ndarray(shape, dtype, buffer)] gives the shared copy. *)

Record ndarray (X : Type) : Type := mk_ndarray {
  shape : list nat;
  data : list X
}.
Arguments mk_ndarray {X} shape data.
Arguments shape {X} _.
Arguments data {X} _.

Definition prod_list (l : list nat) : nat := foldr Nat.mul 1 l.

Definition ndim {X} (a : ndarray X) : nat := length (shape a).
Definition size {X} (a : ndarray X) : nat := prod_list (shape a).

(** The representation invariant of an array: as many elements as the shape
    announces. *)
Definition wf {X} (a : ndarray X) : Prop := length (data a) = size a.

(** [n] consecutive blocks of [sz] elements. *)
Fixpoint chunks {X} (n sz : nat) (l : list X) : list (list X) :=
  match n with
  | O => []
  | S n' => take sz l :: chunks n' sz (drop sz l)
  end.

(** Iterating an array ([for row in a], [[img for img in a]]) yields the
    sub-arrays along the first axis; a 0-d array is not iterable. *)
Definition iter_axis0 {X} (a : ndarray X) : result (list (ndarray X)) :=
  match shape a with
  | [] => Err TypeError
  | n :: rest => Ok (mk_ndarray rest <$> chunks n (prod_list rest) (data a))
  end.

(** [enumerate(l)] *)
Definition enumerate {X} (l : list X) : list (nat * X) :=
  zip (seq 0 (length l)) l.

(** [l[i]] and [l[i] = x] for a non-negative index: out of range raises. *)
Definition getitem {X} (l : list X) (i : nat) : result X :=
  match l !! i with
  | Some x => Ok x
  | None => Err IndexError
  end.

Definition setitem {X} (l : list X) (i : nat) (x : X) : result (list X) :=
  if decide (i < length l) then Ok (<[i:=x]> l) else Err IndexError.

(** [l[-1]] *)
Definition getitem_last {X} (l : list X) : result X :=
  match last l with
  | Some x => Ok x
  | None => Err IndexError
  end.

(** Python's normalisation of a slice bound [k] for a sequence of length
    [len]: a negative bound counts from the end, and the result is clamped
    to [0 .. len]. *)
Definition slice_index (len : nat) (k : Z) : nat :=
  if (k <? 0)%Z
  then Z.to_nat (Z.max 0 (Z.of_nat len + k))
  else Z.to_nat (Z.min k (Z.of_nat len)).

(** [row[:k]] and [row[k:]] *)
Definition slice_to {X} (row : list X) (k : Z) : list X :=
  take (slice_index (length row) k) row.
Definition slice_from {X} (row : list X) (k : Z) : list X :=
  drop (slice_index (length row) k) row.

(** ** Reading the edge mask *)

(** Flat positions of the [True] elements, counted from [k]. *)
Fixpoint flatnonzero_from (k : nat) (l : list bool) : list nat :=
  match l with
  | [] => []
  | b :: l' =>
      if b then k :: flatnonzero_from (S k) l' else flatnonzero_from (S k) l'
  end.

(** [row > 0] on a boolean row is the row itself; [isedge.any()]. *)
Definition any (isedge : ndarray bool) : bool := existsb id (data isedge).

(** [np.where(isedge)[0]]: the first-axis index of every [True] element, in
    row-major order. For a 1-d row this is the column index. *)
Definition where0 (isedge : ndarray bool) : list nat :=
  (λ k, k / prod_list (tail (shape isedge)))%nat <$> flatnonzero_from 0 (data isedge).

(** The loop of lines 157-167: rows with an edge pixel get the first and
    the last edge column as bounds, the others keep what they have. *)
Fixpoint mark_bounds (rows : list (nat * ndarray bool))
    (start_cols stop_cols : list Z) : result (list Z * list Z) :=
  match rows with
  | [] => Ok (start_cols, stop_cols)
  | (i, row) :: rest =>
      let isedge := row in
      if any isedge then
        let w := where0 isedge in
        w_first <- getitem w 0 ;;
        w_last <- getitem_last w ;;
        start_cols <- setitem start_cols i (Z.of_nat w_first) ;;
        stop_cols <- setitem stop_cols i (Z.of_nat w_last) ;;
        mark_bounds rest start_cols stop_cols
      else mark_bounds rest start_cols stop_cols
  end.

(** [_, n_cols = image.shape] *)
Definition unpack_shape2 {X} (a : ndarray X) : result (nat * nat) :=
  match shape a with
  | [h; w] => Ok (h, w)
  | _ => Err ValueError
  end.

(** Lines 151-167: the bounds of every row before the shrink step. *)
Definition contour_bounds (edge : ndarray bool) : result (list Z * list Z) :=
  w_edge <- getitem (shape edge) 1 ;;
  let middle_col := ((Z.of_nat w_edge - 1) `div` 2)%Z in
  h_edge <- getitem (shape edge) 0 ;;
  let start_cols := replicate h_edge middle_col in
  let stop_cols := replicate h_edge middle_col in
  rows <- iter_axis0 edge ;;
  mark_bounds (enumerate rows) start_cols stop_cols.

(** Lines 151-178: the bounds used to gather the air pixels, after
    [start_cols // 2] and [(stop_cols + n_cols) // 2] of lines 177-178. *)
Definition air_region_bounds {X} (edge : ndarray bool) (image : ndarray X)
    : result (list Z * list Z) :=
  bounds <- contour_bounds edge ;;
  let '(start_cols, stop_cols) := bounds in
  hw <- unpack_shape2 image ;;
  let '(_, n_cols) := hw in
  let start_cols := (λ s, s `div` 2)%Z <$> start_cols in
  let stop_cols := (λ s, (s + Z.of_nat n_cols) `div` 2)%Z <$> stop_cols in
  Ok (start_cols, stop_cols).

(** ** The per-image correction *)

Section skimage.
Context {A F : Type}.

(** What numpy and skimage provide, for pixels of dtype [A] and floating
    point results of type [F]: the cast that [np.concatenate] applies when
    it joins pixels to a float array, [ndarray.mean] of a 1-d array,
    the division of a pixel by a float scalar, and [feature.canny]. *)
Variable astype : A → F.
Variable mean : list F → F.
Variable true_divide : A → F → F.
Variable canny : ndarray A → Z → result (ndarray bool).

(** [row[: start_col]] and [row[stop_col :]], as [np.concatenate] joins
    them to the float arrays [left] and [right]. The rows are 1-d (the
    image is 2-d once its shape was unpacked), so a row slice is a slice
    of its elements. *)
Definition row_left (row : ndarray A) (start_col : Z) : list F :=
  astype <$> slice_to (data row) start_col.
Definition row_right (row : ndarray A) (stop_col : Z) : list F :=
  astype <$> slice_from (data row) stop_col.

(** The loop of lines 195-199. *)
Fixpoint gather (rows : list (nat * ndarray A)) (start_cols stop_cols : list Z)
    (left right : list F) : result (list F * list F) :=
  match rows with
  | [] => Ok (left, right)
  | (i, row) :: rest =>
      start_col <- getitem start_cols i ;;
      let left := left ++ row_left row start_col in
      stop_col <- getitem stop_cols i ;;
      let right := right ++ row_right row stop_col in
      gather rest start_cols stop_cols left right
  end.

(** Lines 151-200, up to the mean: the collection of air pixels,
    [np.concatenate((left, right))]. *)
Definition collect_air_pixels (edge : ndarray bool) (image : ndarray A) : result (list F) :=
  bounds <- air_region_bounds edge image ;;
  let '(start_cols, stop_cols) := bounds in
  rows <- iter_axis0 image ;;
  sides <- gather (enumerate rows) start_cols stop_cols [] [] ;;
  Ok (sides.1 ++ sides.2).

(** [image / factor] *)
Definition divide (image : ndarray A) (factor : F) : ndarray F :=
  mk_ndarray (shape image) ((λ x, true_divide x factor) <$> data image).

Definition intensity_fluctuation_correction_skimage
    (image : ndarray A) (sigma : Z) : result (ndarray F) :=
  edge <- canny image sigma ;;
  pixels <- collect_air_pixels edge image ;;
  let factor := mean pixels in
  Ok (divide image factor).

End skimage.

(** ** float64 pixels *)

Module Float64.

(** numpy's pairwise summation of a contiguous array of float64
    ([DOUBLE_pairwise_sum]). Fewer than 8 elements are added from left to
    right, starting from -0.0. Up to 128 elements go to eight accumulators,
    eight at a time; the accumulators are added two by two and the
    elements that are left over are added one by one. A longer array is
    cut in two at a multiple of 8 near its middle and the two sums are
    added. *)
Fixpoint accumulate (groups : nat) (r l : list float) : list float * list float :=
  match groups with
  | O => (r, l)
  | S groups' => accumulate groups' (zip_with PrimFloat.add r (take 8 l)) (drop 8 l)
  end.

Definition block_sum (l : list float) : float :=
  let '(r, rest) := accumulate (length l `div` 8 - 1) (take 8 l) (drop 8 l) in
  match r with
  | [r0; r1; r2; r3; r4; r5; r6; r7] =>
      foldl PrimFloat.add (((r0 + r1) + (r2 + r3)) + ((r4 + r5) + (r6 + r7)))%float rest
  | _ => foldl PrimFloat.add neg_zero l
  end.

Fixpoint pairwise_sum (fuel : nat) (l : list float) : float :=
  let n := length l in
  if n <? 8 then foldl PrimFloat.add neg_zero l
  else if n <=? 128 then block_sum l
  else
    match fuel with
    | O => block_sum l
    | S fuel' =>
        let n2 := n `div` 2 - (n `div` 2) `mod` 8 in
        (pairwise_sum fuel' (take n2 l) + pairwise_sum fuel' (drop n2 l))%float
    end.

(** [np.add.reduce] of a 1-d array: the identity 0.0 plus the pairwise sum
    (a release of numpy that starts from -0.0 instead differs in the sign
    of a sum that is zero, and in nothing else). *)
Definition sum (l : list float) : float :=
  (0 + pairwise_sum (length l) l)%float.

Definition of_nat (n : nat) : float :=
  PrimFloat.of_uint63 (Uint63.of_Z (Z.of_nat n)).

(** [a.mean()]: the sum divided by the number of elements; the mean of
    no element is [0.0 / 0], which is NaN. *)
Definition mean (l : list float) : float :=
  PrimFloat.div (sum l) (of_nat (length l)).

Definition isnan (x : float) : bool := negb (PrimFloat.eqb x x).

(** An edge detector that finds no edge: what [feature.canny] answers on
    an image without any intensity gradient. Like skimage, it refuses an
    array that is empty or not 2-d. *)
Definition canny_flat {X} (image : ndarray X) (sigma : Z) : result (ndarray bool) :=
  if decide (ndim image = 2 ∧ size image ≠ 0)
  then Ok (mk_ndarray (shape image) (replicate (size image) false))
  else Err ValueError.

(** An edge detector whose answer is the given mask, under the same
    conditions. *)
Definition canny_mask {X} (mask : ndarray bool) (image : ndarray X) (sigma : Z)
    : result (ndarray bool) :=
  if decide (ndim image = 2 ∧ size image ≠ 0 ∧
             shape mask = shape image ∧ length (data mask) = size mask)
  then Ok mask
  else Err ValueError.

End Float64.

(** ** The dispatcher: array buffers, shared memory, the worker pool *)

(** The caller's stack [ct] and the view [shm_arrays] are array objects
    that point to a buffer; all buffers hold elements of the dtype of [ct]. *)
Abbreviation loc := nat.

Record array_ref : Type := mk_array_ref {
  buf : loc;
  ref_shape : list nat
}.

Inductive event : Type :=
  | EvManagerStart
  | EvShmCreate (l : loc) (nbytes : nat)
  | EvCopyTo (dst src : loc)
  | EvProcessMap (n_items : nat) (max_workers chunksize : Z) (progress : bool)
  | EvShmUnlink (l : loc)
  | EvManagerShutdown
  | EvNormalizeBg (air ncore : Z).

Record world (A : Type) : Type := mk_world {
  heap : gmap loc (list A);   (* the buffer of every array and segment *)
  segments : gset loc;        (* the live shared-memory segments *)
  tracked : list loc;         (* the segments the running manager owns *)
  log : list event            (* what was asked of the system, in order *)
}.
Arguments mk_world {A} heap segments tracked log.
Arguments heap {A} _.
Arguments segments {A} _.
Arguments tracked {A} _.
Arguments log {A} _.

(** A computation that reads and changes the world and may raise; what it
    did before raising stays done. *)
Definition M (A X : Type) : Type := world A → world A * result X.

Definition raise {A X} (e : exn) : M A X := λ w, (w, Err e).
Definition lift {A X} (r : result X) : M A X := λ w, (w, r).
Definition bindM {A X Y} (m : M A X) (k : X → M A Y) : M A Y := λ w,
  let '(w1, r) := m w in
  match r with
  | Ok x => k x w1
  | Err e => (w1, Err e)
  end.

Notation "x <-- m ;; k" := (bindM m (fun x => k))
  (at level 100, m at next level, right associativity).

Definition emit {A} (ev : event) : M A unit := λ w,
  (mk_world (heap w) (segments w) (tracked w) (log w ++ [ev]), Ok tt).

(** [for x in l: f(x)], stopping at the first exception. *)
Fixpoint map_result {X Y} (f : X → result Y) (l : list X) : result (list Y) :=
  match l with
  | [] => Ok []
  | x :: l' =>
      y <- f x ;;
      ys <- map_result f l' ;;
      Ok (y :: ys)
  end.

(** The batches [Executor.map] cuts its input into: [chunksize] items
    each, the last one maybe shorter. *)
Fixpoint batched_aux {X} (fuel chunksize : nat) (l : list X) : list (list X) :=
  match fuel with
  | O => []
  | S fuel' =>
      match l with
      | [] => []
      | _ => take chunksize l :: batched_aux fuel' chunksize (drop chunksize l)
      end
  end.
Definition batched {X} (chunksize : nat) (l : list X) : list (list X) :=
  batched_aux (length l) chunksize l.

Record process_map_kwargs (T : Type) : Type := mk_kwargs {
  kw_max_workers : Z;
  kw_chunksize : Z;
  kw_tqdm_class : option T
}.
Arguments mk_kwargs {T} _ _ _.
Arguments kw_max_workers {T} _.
Arguments kw_chunksize {T} _.
Arguments kw_tqdm_class {T} _.

(** [tqdm.contrib.concurrent.process_map]: a [ProcessPoolExecutor] of
    [max_workers] processes (refused unless positive) maps [fn] over the
    batches ([chunksize] refused unless at least 1); every worker gets a
    pickled copy of its items and sends its results back; the results are
    chained in the order of the input and the first exception met in that
    order is raised. The progress bar has no part in the result. *)
Definition process_map {A T X Y} (fn : X → result Y) (iterable : list X)
    (kwargs : process_map_kwargs T) : M A (list Y) :=
  _ <-- emit (EvProcessMap (length iterable) (kw_max_workers kwargs)
                (kw_chunksize kwargs) (bool_decide (is_Some (kw_tqdm_class kwargs)))) ;;
  if (kw_max_workers kwargs <=? 0)%Z then raise ValueError
  else if (kw_chunksize kwargs <? 1)%Z then raise ValueError
  else
    lift (per_batch <- map_result (map_result fn)
                         (batched (Z.to_nat (kw_chunksize kwargs)) iterable) ;;
          Ok (concat per_batch)).

(** [np.array(rst)]: a list of arrays of one shape becomes an array with
    one more axis; arrays of different shapes are refused. *)
Definition np_array {X} (rst : list (ndarray X)) : result (ndarray X) :=
  match rst with
  | [] => Ok (mk_ndarray [0] [])
  | a :: _ =>
      if bool_decide (Forall (λ b, shape b = shape a) rst)
      then Ok (mk_ndarray (length rst :: shape a) (concat (data <$> rst)))
      else Err ValueError
  end.

Section dispatcher.
Context {A F T : Type}.

Variable astype : A → F.
Variable mean : list F → F.
Variable true_divide : A → F → F.
Variable canny : ndarray A → Z → result (ndarray bool).

(** The element a fresh shared-memory segment is filled with, and
    [ct.itemsize]. *)
Variable zero : A.
Variable itemsize : nat.

(** [imars3d.backend.util.functions.calculate_chunksize(num_elements,
    max_workers)] and [tomopy.normalize_bg(ct, air, ncore)], which may
    work in place on the buffer of [ct]. *)
Variable calculate_chunksize : nat → Z → Z.
Variable normalize_bg :
  gmap loc (list A) → array_ref → Z → Z → gmap loc (list A) * result (ndarray F).

(** The array an array object denotes. *)
Definition load (w : world A) (a : array_ref) : ndarray A :=
  mk_ndarray (ref_shape a) (default [] (heap w !! buf a)).

Definition nbytes (a : array_ref) : nat := prod_list (ref_shape a) * itemsize.

(** [smm.SharedMemory(size)]: a segment of size 0 is refused; otherwise a
    fresh zero-filled segment is created and the manager keeps track of
    it. *)
Definition SharedMemory (size : nat) : M A loc := λ w,
  if decide (size = 0) then (w, Err ValueError)
  else
    let l := fresh (dom (heap w)) in
    (mk_world (<[l := replicate (size `div` itemsize) zero]> (heap w))
              ({[l]} ∪ segments w) (tracked w ++ [l])
              (log w ++ [EvShmCreate l size]),
     Ok l).

(** [np.copyto(dst, src)] for two arrays of one shape. *)
Definition copyto (dst src : array_ref) : M A unit := λ w,
  (mk_world (<[buf dst := default [] (heap w !! buf src)]> (heap w))
            (segments w) (tracked w) (log w ++ [EvCopyTo (buf dst) (buf src)]),
   Ok tt).

(** [SharedMemoryManager.shutdown]: every segment of the manager is
    unlinked. *)
Definition unlink (w : world A) (l : loc) : world A :=
  mk_world (delete l (heap w)) (segments w ∖ {[l]}) (tracked w)
           (log w ++ [EvShmUnlink l]).

Definition shutdown (outer : list loc) (w : world A) : world A :=
  let w' := foldl unlink w (tracked w) in
  mk_world (heap w') (segments w') outer (log w' ++ [EvManagerShutdown]).

(** [with SharedMemoryManager() as smm: body]: the manager is shut down
    when the block is left, by its end or by an exception. *)
Definition with_SharedMemoryManager {X} (body : M A X) : M A X := λ w,
  let outer := tracked w in
  let w0 := mk_world (heap w) (segments w) [] (log w ++ [EvManagerStart]) in
  let '(w1, r) := body w0 in
  (shutdown outer w1, r).

(** [[img for img in shm_arrays]] *)
Definition frames (a : array_ref) : M A (list (ndarray A)) := λ w,
  (w, iter_axis0 (load w a)).

Definition tomopy_normalize_bg (ct : array_ref) (air ncore : Z) : M A (ndarray F) := λ w,
  let '(h, r) := normalize_bg (heap w) ct air ncore in
  (mk_world h (segments w) (tracked w) (log w ++ [EvNormalizeBg air ncore]), r).

(** Lines 82-105: the adaptive path. *)
Definition adaptive_path (ct : array_ref) (sigma max_workers : Z)
    (tqdm_class : option T) : M A (list (ndarray F)) :=
  with_SharedMemoryManager (
    shm <-- SharedMemory (nbytes ct) ;;
    let shm_arrays := mk_array_ref shm (ref_shape ct) in
    _ <-- copyto shm_arrays ct ;;
    n_frames <-- lift (getitem (ref_shape ct) 0) ;;
    let kwargs :=
      mk_kwargs max_workers (calculate_chunksize n_frames max_workers) tqdm_class in
    imgs <-- frames shm_arrays ;;
    process_map
      (λ img, intensity_fluctuation_correction_skimage
                astype mean true_divide canny img sigma)
      imgs kwargs).

Definition _intensity_fluctuation_correction (ct : array_ref)
    (air_pixels sigma max_workers : Z) (tqdm_class : option T) : M A (ndarray F) :=
  if negb (bool_decide (length (ref_shape ct) ∈ [2; 3]))
  then raise ValueError
  else if (air_pixels <? 0)%Z then
    rst <-- adaptive_path ct sigma max_workers tqdm_class ;;
    lift (np_array rst)
  else tomopy_normalize_bg ct air_pixels max_workers.

End dispatcher.

(** ** The entry point *)

Section entry_point.
Context {A F T : Type}.

Variable astype : A → F.
Variable mean : list F → F.
Variable true_divide : A → F → F.
Variable canny : ndarray A → Z → result (ndarray bool).
Variable zero : A.
Variable itemsize : nat.
Variable calculate_chunksize : nat → Z → Z.
Variable normalize_bg :
  gmap loc (list A) → array_ref → Z → Z → gmap loc (list A) * result (ndarray F).

(** [imars3d.backend.util.functions.clamp_max_workers], not among the
    sources. *)
Variable clamp_max_workers : Z → Z.

(** Lines 57-72: [intensity_fluctuation_correction.__call__]. [param]
    checks the arguments against their declarations when the instance is
    made ([max_workers] is an Integer with the bounds [(0, None)]) and
    again when [self.max_workers] is set; the clamped number of workers is
    what the correction gets. *)
Definition intensity_fluctuation_correction__call__ (ct : array_ref)
    (air_pixels sigma max_workers : Z) (tqdm_class : option T) : M A (ndarray F) :=
  if (max_workers <? 0)%Z then raise ValueError
  else
    let self_max_workers := clamp_max_workers max_workers in
    if (self_max_workers <? 0)%Z then raise ValueError
    else
      _intensity_fluctuation_correction astype mean true_divide canny zero itemsize
        calculate_chunksize normalize_bg ct air_pixels sigma self_max_workers tqdm_class.

End entry_point.

(** ** The correction on float64 stacks *)

Module Float64Stack.

Definition ifc_skimage canny : ndarray float → Z → result (ndarray float) :=
  intensity_fluctuation_correction_skimage id Float64.mean PrimFloat.div canny.

(** Modelled from the spec: [calculate_chunksize] of
    [imars3d.backend.util.functions] is not among the sources. The spec
    asks for a chunk size of at least 1 and for not many more chunks than
    workers, and leaves the function open; this one gives every worker
    about four chunks. The properties below hold for any helper that
    answers at least 1. *)
Definition calculate_chunksize (num_elements : nat) (max_workers : Z) : Z :=
  Z.max 1 ((Z.of_nat num_elements + 4 * max_workers - 1) `div` (4 * max_workers)).

(** A stand-in for [tomopy.normalize_bg], out of scope here: it answers
    the stack as it is. *)
Definition normalize_bg (h : gmap loc (list float)) (ct : array_ref) (air ncore : Z)
    : gmap loc (list float) * result (ndarray float) :=
  (h, Ok (mk_ndarray (ref_shape ct) (default [] (h !! buf ct)))).

Definition ifc canny
    : array_ref → Z → Z → Z → option unit → M float (ndarray float) :=
  _intensity_fluctuation_correction id Float64.mean PrimFloat.div canny
    0%float 8 calculate_chunksize normalize_bg.

(** A stack of [n] frames, all of them the image [frame], in the buffer
    0 of an otherwise empty world. *)
Definition stack_world (n : nat) (frame : ndarray float) : world float :=
  mk_world {[ 0 := concat (replicate n (data frame)) ]} ∅ [] [].
Definition stack_ref (n : nat) (frame : ndarray float) : array_ref :=
  mk_array_ref 0 (n :: shape frame).

(** A 2 x 8 image of background 2.0 with an object of value 8.0, and a
    mask made by hand that marks the two ends of the object in the first
    row. It is the answer of a stand-in detector ([Float64.canny_mask]):
    on an image this small skimage's detector finds no edge. *)
Definition object_image : ndarray float :=
  mk_ndarray [2; 8] [2; 2; 8; 8; 8; 8; 2; 2;
                     2; 2; 2; 2; 2; 2; 2; 2]%float.
Definition object_mask : ndarray bool :=
  mk_ndarray [2; 8] [false; false; true; false; false; true; false; false;
                     false; false; false; false; false; false; false; false].

(** An image without any intensity gradient, 2 x 10, and the all-zero
    image 2 x 3. *)
Definition flat_image : ndarray float :=
  mk_ndarray [2; 10] (replicate 20 1%float).
Definition zero_image : ndarray float :=
  mk_ndarray [2; 3] (replicate 6 0%float).

(** One row of ten pixels 0.0 .. 9.0, and the mask without any edge
    pixel for a given shape. *)
Definition ramp_image : ndarray float :=
  mk_ndarray [1; 10] [0; 1; 2; 3; 4; 5; 6; 7; 8; 9]%float.
Definition no_edge_mask (shp : list nat) : ndarray bool :=
  mk_ndarray shp (replicate (prod_list shp) false).

End Float64Stack.

(** ** The entry point on float64 stacks *)

Module Float64Entry.

(** Modelled from the spec: [clamp_max_workers] of
    [imars3d.backend.util.functions] is not among the sources. The spec has
    0 mean all the available parallelism and any other request capped to
    it, for a number of workers between 1 and [cores]. *)
Definition clamp_max_workers (cores max_workers : Z) : Z :=
  if (max_workers <=? 0)%Z then cores else Z.min max_workers cores.

Definition call canny
    : array_ref → Z → Z → Z → option unit → M float (ndarray float) :=
  intensity_fluctuation_correction__call__ id Float64.mean PrimFloat.div canny
    0%float 8 Float64Stack.calculate_chunksize Float64Stack.normalize_bg
    (clamp_max_workers 8).

End Float64Entry.

(** * The workflow validator (imars3d.backend.workflow.validate) *)

Module Validate.

(** A Python [str] is a sequence of code points; [py] reads an ASCII
    literal. *)
Abbreviation str := (list N).

Definition py (s : string) : str := N_of_ascii <$> list_ascii_of_string s.

Definition dot : N := 46%N.

(** [str.isspace] of one character. *)
Definition isspace (c : N) : bool :=
  ((9 <=? c) && (c <=? 13) || (28 <=? c) && (c <=? 32) ||
   (c =? 133) || (c =? 160) || (c =? 5760) ||
   (8192 <=? c) && (c <=? 8202) || (c =? 8232) || (c =? 8233) ||
   (c =? 8239) || (c =? 8287) || (c =? 12288))%N.

Fixpoint lstrip (s : str) : str :=
  match s with
  | [] => []
  | c :: s' => if isspace c then lstrip s' else s
  end.

(** [s.strip()] *)
Definition strip (s : str) : str := reverse (lstrip (reverse (lstrip s))).

(** [s.split(sep)] for a separator of one character: never empty. *)
Fixpoint split (sep : N) (s : str) : list str :=
  match s with
  | [] => [[]]
  | c :: s' =>
      if decide (c = sep) then [] :: split sep s'
      else match split sep s' with
           | h :: t => (c :: h) :: t
           | [] => [[c]]
           end
  end.

(** [sep.join(parts)] *)
Fixpoint join (sep : str) (parts : list str) : str :=
  match parts with
  | [] => []
  | [x] => x
  | x :: parts' => x ++ sep ++ join sep parts'
  end.

(** The messages of the three [JSONValidationError] of the task check and
    the one of the schema check. *)
Inductive message : Type :=
  | WhileValidating
  | EmptyFunction (step : nat)
  | NotAbsolute (func_str : str)
  | NonexistentFunction (step : nat) (func_str : str).

Inductive error : Type :=
  | JSONValidationError (msg : message)
  | KeyError
  | TypeError
  | AttributeError
  | ValueError
  | ModuleNotFoundError
  | OSError.

Inductive res (X : Type) : Type :=
  | Return (x : X)
  | Raise (e : error).
Arguments Return {X} x.
Arguments Raise {X} e.

Definition and_then {X Y} (r : res X) (k : X → res Y) : res Y :=
  match r with
  | Return x => k x
  | Raise e => Raise e
  end.

Notation "x <~ r ;; k" := (and_then r (fun x => k))
  (at level 100, r at next level, right associativity).

(** What [json.loads] builds: a [dict] keeps its keys in the order of
    their insertion, each key once. *)
#[local] Unset Elimination Schemes.
Inductive json : Type :=
  | JNull
  | JBool (b : bool)
  | JInt (z : Z)
  | JFloat (f : float)
  | JStr (s : str)
  | JArr (l : list json)
  | JObj (d : list (str * json)).
#[local] Set Elimination Schemes.

Fixpoint dict_get (key : str) (d : list (str * json)) : option json :=
  match d with
  | [] => None
  | (k, v) :: d' => if decide (k = key) then Some v else dict_get key d'
  end.

(** [v[key]] for a key that is a [str]: a missing key of a [dict] is a
    [KeyError]; a [list] or a [str] wants integer indices and the other
    values are not subscriptable, a [TypeError] each. *)
Definition subscript (v : json) (key : str) : res json :=
  match v with
  | JObj d =>
      match dict_get key d with
      | Some x => Return x
      | None => Raise KeyError
      end
  | _ => Raise TypeError
  end.

(** [for x in v]: the items of a [list], the keys of a [dict], the
    characters of a [str]; the other values are not iterable. *)
Definition iterate (v : json) : res (list json) :=
  match v with
  | JArr l => Return l
  | JObj d => Return ((λ kv, JStr kv.1) <$> d)
  | JStr s => Return ((λ c, JStr [c]) <$> s)
  | _ => Raise TypeError
  end.

(** [v.strip()]: only a [str] has the method. *)
Definition strip_method (v : json) : res str :=
  match v with
  | JStr s => Return (strip s)
  | _ => Raise AttributeError
  end.

(** ** The schema and its validation

    The keywords and the types that [SCHEMA] uses, with the meaning draft 7
    gives them: [type]; [properties] and [required], which only constrain
    an object; [items] and [minItems], which only constrain an array. *)

Inductive jtype : Type := TyString | TyObject | TyArray.

#[local] Unset Elimination Schemes.
Inductive schema : Type := mk_schema {
  sc_type : option jtype;
  sc_properties : list (str * schema);
  sc_required : list str;
  sc_items : option schema;
  sc_minItems : option nat
}.
#[local] Set Elimination Schemes.

Definition is_type (t : jtype) (v : json) : bool :=
  match t, v with
  | TyString, JStr _ => true
  | TyObject, JObj _ => true
  | TyArray, JArr _ => true
  | _, _ => false
  end.

(** [jsonschema.validate] finds no error. *)
Fixpoint is_valid (s : schema) (v : json) {struct s} : bool :=
  match s with
  | mk_schema ty props req items min_items =>
      let fix properties_ok (ps : list (str * schema)) (d : list (str * json)) : bool :=
        match ps with
        | [] => true
        | (k, sk) :: ps' =>
            match dict_get k d with
            | Some x => is_valid sk x
            | None => true
            end && properties_ok ps' d
        end in
      match ty with
      | Some t => is_type t v
      | None => true
      end &&
      match v with
      | JObj d =>
          properties_ok props d &&
          forallb (λ k, bool_decide (is_Some (dict_get k d))) req
      | JArr l =>
          match items with
          | Some si => forallb (is_valid si) l
          | None => true
          end &&
          match min_items with
          | Some n => bool_decide (n ≤ length l)
          | None => true
          end
      | _ => true
      end
  end.

Definition of_type (t : jtype) : schema := mk_schema (Some t) [] [] None None.

(** Lines 25-33: what [SCHEMA] asks of every item of ["tasks"]. *)
Definition TASK_SCHEMA : schema :=
  mk_schema None
    [(py "name", of_type TyString);
     (py "function", of_type TyString);
     (py "inputs", of_type TyObject);
     (py "outputs", of_type TyArray)]
    [py "name"; py "function"; py "inputs"]
    None None.

(** Lines 13-37. *)
Definition SCHEMA : schema :=
  mk_schema (Some TyObject)
    [(py "instrument", of_type TyString);
     (py "ipts", of_type TyString);
     (py "name", of_type TyString);
     (py "workingdir", of_type TyString);
     (py "outputdir", of_type TyString);
     (py "tasks", mk_schema (Some TyArray) [] [] (Some TASK_SCHEMA) (Some 1))]
    [py "instrument"; py "ipts"; py "name"; py "workingdir"; py "outputdir"; py "tasks"]
    None None.

(** Lines 40-45. *)
Definition _validate_schema (json_obj : json) : res unit :=
  if is_valid SCHEMA json_obj then Return tt
  else Raise (JSONValidationError WhileValidating).

(** Lines 48-52. [split] answers at least one part, so [[-1]] finds one. *)
Definition _function_parts (func_str : str) : str * str :=
  let parts := split dot func_str in
  let mod_str := join [dot] (take (length parts - 1) parts) in
  let func_str := default [] (last parts) in
  (mod_str, func_str).

(** What a value passed for the configuration can be: a [dict], a
    [pathlib.Path], a [str], or something else. *)
Inductive value : Type :=
  | VDict (d : list (str * json))
  | VPath (path : str)
  | VStr (s : str)
  | VOther.

Section validate.

(** [bool(importlib.util.find_spec(name, package))], [json.loads(s)], and
    [json.load] of the file opened at a path. *)
Variable find_spec : str → str → res bool.
Variable json_loads : str → res json.
Variable json_load_path : str → res json.

(** Lines 55-59. *)
Definition _function_exists (func_str : str) : res bool :=
  let '(mod_str, func_str) := _function_parts func_str in
  find_spec mod_str func_str.

(** Lines 64-72, the body of the loop for one task and the loop. *)
Definition check_task (step : nat) (task : json) : res unit :=
  function <~ subscript task (py "function") ;;
  func_str <~ strip_method function ;;
  if bool_decide (func_str = []) then
    Raise (JSONValidationError (EmptyFunction step))
  else if negb (bool_decide (dot ∈ func_str)) then
    Raise (JSONValidationError (NotAbsolute func_str))
  else
    found <~ _function_exists func_str ;;
    if negb found then Raise (JSONValidationError (NonexistentFunction step func_str))
    else Return tt.

Fixpoint check_tasks (tasks : list (nat * json)) : res unit :=
  match tasks with
  | [] => Return tt
  | (step, task) :: rest =>
      _ <~ check_task step task ;;
      check_tasks rest
  end.

(** Lines 62-72. *)
Definition _validate_tasks_exist (json_obj : json) : res unit :=
  tasks <~ subscript json_obj (py "tasks") ;;
  items <~ iterate tasks ;;
  check_tasks (enumerate items).

(** Lines 75-85. *)
Definition _todict (obj : value) : res json :=
  match obj with
  | VDict d => Return (JObj d)
  | VPath path => json_load_path path
  | VStr s => json_loads s
  | VOther => Raise TypeError
  end.

(** Lines 106-108. *)
Definition _validate (obj : json) : res unit :=
  _ <~ _validate_schema obj ;;
  _validate_tasks_exist obj.

(** Lines 99-104: the descriptor, on the attribute [_json] of the object
    that holds it. The attribute is set before the value is validated. *)
Definition JSONValid__get__ (obj_json : option json) : res json :=
  match obj_json with
  | Some j => Return j
  | None => Raise AttributeError
  end.

Definition JSONValid__set__ (obj_json : option json) (v : value)
    : option json * res unit :=
  match _todict v with
  | Return d => (Some d, _validate d)
  | Raise e => (obj_json, Raise e)
  end.

End validate.

(** ** What the schema asks, spelled out *)

Definition has_str (d : list (str * json)) (key : str) : Prop :=
  ∃ s, dict_get key d = Some (JStr s).

(** A task that is a [dict] needs a name, a function and inputs, and its
    outputs, if any, are a list; a task that is not a [dict] is not
    looked at. *)
Definition task_fits (task : json) : Prop :=
  match task with
  | JObj t =>
      has_str t (py "name") ∧ has_str t (py "function") ∧
      (∃ inputs, dict_get (py "inputs") t = Some (JObj inputs)) ∧
      (dict_get (py "outputs") t = None ∨
       ∃ outputs, dict_get (py "outputs") t = Some (JArr outputs))
  | _ => True
  end.

Definition config_fits (json_obj : json) : Prop :=
  ∃ d tasks,
    json_obj = JObj d ∧
    has_str d (py "instrument") ∧ has_str d (py "ipts") ∧ has_str d (py "name") ∧
    has_str d (py "workingdir") ∧ has_str d (py "outputdir") ∧
    dict_get (py "tasks") d = Some (JArr tasks) ∧ tasks ≠ [] ∧
    Forall task_fits tasks.

(** A task that the loop of [_validate_tasks_exist] lets through: a
    [dict] whose function is a string that, once stripped, is not empty,
    holds a dot and names something [find_spec] finds. *)
Definition task_runs (find_spec : str → str → res bool) (task : json) : Prop :=
  ∃ t f,
    task = JObj t ∧ dict_get (py "function") t = Some (JStr f) ∧
    strip f ≠ [] ∧ dot ∈ strip f ∧
    _function_exists find_spec (strip f) = Return true.

(** ** Configurations to try the validator on *)

(** A stand-in for [find_spec] on absolute names, over the modules of a
    given list: an empty name is not found; a name whose parent package is
    not known raises [ModuleNotFoundError], as the import of the parent
    does; any other name is found when it is known. *)
Definition find_spec_in (known : list str) (name package : str) : res bool :=
  if bool_decide (name = []) then Return false
  else
    let parent := (_function_parts name).1 in
    if bool_decide (parent = []) || bool_decide (parent ∈ known)
    then Return (bool_decide (name ∈ known))
    else Raise ModuleNotFoundError.

Definition settings : list (str * json) :=
  [(py "instrument", JStr (py "CG1D")); (py "ipts", JStr (py "IPTS-1234"));
   (py "name", JStr (py "demo")); (py "workingdir", JStr (py "/tmp/work"));
   (py "outputdir", JStr (py "/tmp/out"))].

Definition load_task : json :=
  JObj [(py "name", JStr (py "load"));
        (py "function", JStr (py " imars3d.backend.dataio.data.load_data "));
        (py "inputs", JObj [])].

Definition config_with (tasks : list json) : json :=
  JObj (settings ++ [(py "tasks", JArr tasks)]).

(** A task whose function has no dot, and the modules that the stand-in
    for [find_spec] finds. *)
Definition relative_task : json :=
  JObj [(py "name", JStr (py "crop")); (py "function", JStr (py "crop"));
        (py "inputs", JObj [])].

Definition known_modules : list str :=
  [py "imars3d"; py "imars3d.backend"; py "imars3d.backend.dataio";
   py "imars3d.backend.dataio.data"].

End Validate.

(** ** Vocabulary of the properties *)

(** [feature.canny] as skimage documents it: an image that is not 2-d, or
    that is empty, is refused, and the answer is a boolean mask of the
    shape of the image. What the mask holds is left open. *)
Definition canny_contract {A} (canny : ndarray A → Z → result (ndarray bool)) : Prop :=
  ∀ image sigma edge, canny image sigma = Ok edge →
    ndim image = 2 ∧ size image ≠ 0 ∧ shape edge = shape image ∧ wf edge.

(** The first and the last edge pixel of a row, as the claim words them. *)
Definition first_edge_at (row : list bool) (s : nat) : Prop :=
  row !! s = Some true ∧ ∀ j, j < s → row !! j ≠ Some true.
Definition last_edge_at (row : list bool) (e : nat) : Prop :=
  row !! e = Some true ∧ ∀ j, e < j → row !! j ≠ Some true.

(** Line 151: the middle column of a mask of [W] columns. *)
Definition middle_col (W : nat) : Z := ((Z.of_nat W - 1) `div` 2)%Z.

(** What the loop of lines 157-167 leaves for one row: the first and the
    last edge column when the row has an edge pixel, the guess it had
    otherwise. *)
Definition row_contour (row : ndarray bool) (guess : Z) : Z * Z :=
  match head (where0 row), last (where0 row) with
  | Some s, Some e => (Z.of_nat s, Z.of_nat e)
  | _, _ => (guess, guess)
  end.

(** * Properties *)

(** ** Arrays and their rows *)

Lemma bind_Ok {X Y} (r : result X) (k : X → result Y) y :
  bind r k = Ok y → ∃ x, r = Ok x ∧ k x = Ok y.
Proof. destruct r as [x|e]; simpl; [eauto | discriminate]. Qed.

Lemma length_chunks {X} n sz (l : list X) : length (chunks n sz l) = n.
Proof. revert l. induction n as [|n IH]; intros l; simpl; [done | by rewrite IH]. Qed.

Lemma lookup_chunks {X} n sz (l : list X) i :
  i < n → chunks n sz l !! i = Some (take sz (drop (i * sz) l)).
Proof.
  revert l i. induction n as [|n IH]; intros l i Hi; [lia|].
  destruct i as [|i]; simpl.
  - done.
  - rewrite IH by lia. by rewrite drop_drop.
Qed.

Lemma length_chunk {X} n sz (l : list X) i c :
  length l = n * sz → chunks n sz l !! i = Some c → length c = sz.
Proof.
  intros Hl Hc.
  assert (i < n) as Hi.
  { apply lookup_lt_Some in Hc. by rewrite length_chunks in Hc. }
  rewrite lookup_chunks in Hc by done. injection Hc as <-.
  rewrite length_take, length_drop. nia.
Qed.

(** The rows of a 2-d array: as many as its first dimension, each 1-d and
    as long as the second. *)
Lemma iter_axis0_2d {X} (a : ndarray X) H W :
  shape a = [H; W] →
  iter_axis0 a = Ok (mk_ndarray [W] <$> chunks H W (data a)).
Proof.
  intros Hs. unfold iter_axis0. rewrite Hs. simpl.
  by rewrite Nat.mul_1_r.
Qed.

Lemma rows_2d {X} (a : ndarray X) H W rows :
  wf a → shape a = [H; W] → iter_axis0 a = Ok rows →
  length rows = H ∧
  ∀ i row, rows !! i = Some row → shape row = [W] ∧ length (data row) = W.
Proof.
  intros Hwf Hs Hit. rewrite (iter_axis0_2d a H W Hs) in Hit.
  injection Hit as <-. split.
  - by rewrite length_fmap, length_chunks.
  - intros i row Hrow. rewrite list_lookup_fmap in Hrow.
    destruct (chunks H W (data a) !! i) as [c|] eqn:Hc; [|done].
    injection Hrow as <-. split; [done|]. simpl.
    eapply length_chunk; [|done].
    unfold wf, size in Hwf. rewrite Hwf, Hs. simpl. lia.
Qed.

(** ** The edge pixels of a row *)

Lemma flatnonzero_from_range k l :
  Forall (λ x, k ≤ x < k + length l) (flatnonzero_from k l).
Proof.
  revert k. induction l as [|b l IH]; intros k; simpl; [constructor|].
  specialize (IH (S k)).
  assert (Forall (λ x, k ≤ x < k + S (length l)) (flatnonzero_from (S k) l)) as Hrest.
  { eapply Forall_impl; [exact IH|]. simpl. intros x Hx. lia. }
  destruct b; [constructor; [lia | done] | done].
Qed.

Lemma flatnonzero_from_any k l :
  existsb id l = true ↔ flatnonzero_from k l ≠ [].
Proof.
  revert k. induction l as [|b l IH]; intros k; simpl.
  - split; [discriminate | congruence].
  - destruct b; simpl; [split; [discriminate | done] | apply IH].
Qed.

Lemma flatnonzero_from_head_last k l s e :
  head (flatnonzero_from k l) = Some s →
  last (flatnonzero_from k l) = Some e →
  k ≤ s ∧ s ≤ e ∧ e < k + length l.
Proof.
  revert k. induction l as [|b l IH]; intros k; simpl; [discriminate|].
  destruct b; simpl.
  - intros [= <-]. rewrite last_cons.
    destruct (last (flatnonzero_from (S k) l)) as [y|] eqn:Hlast.
    + intros [= <-].
      pose proof (flatnonzero_from_range (S k) l) as Hr.
      rewrite Forall_forall in Hr.
      specialize (Hr y (last_Some_elem_of _ _ Hlast)). simpl in Hr. lia.
    + intros [= <-]. lia.
  - intros Hh Hl. specialize (IH (S k) Hh Hl). lia.
Qed.

Lemma flatnonzero_from_none k l :
  (∀ j, l !! j ≠ Some true) → flatnonzero_from k l = [].
Proof.
  revert k. induction l as [|b l IH]; intros k Hl; simpl; [done|].
  destruct b.
  - by destruct (Hl 0).
  - apply IH. intros j. apply (Hl (S j)).
Qed.

Lemma flatnonzero_from_head k l s :
  first_edge_at l s → head (flatnonzero_from k l) = Some (k + s).
Proof.
  revert k s. induction l as [|b l IH]; intros k s [Hs Hbefore]; [done|].
  destruct s as [|s]; simpl in *.
  - injection Hs as ->. simpl. f_equal. lia.
  - destruct b.
    + by destruct (Hbefore 0); [lia|].
    + rewrite (IH (S k) s); [f_equal; lia|].
      split; [done|]. intros j Hj. apply (Hbefore (S j)). lia.
Qed.

Lemma flatnonzero_from_last k l e :
  last_edge_at l e → last (flatnonzero_from k l) = Some (k + e).
Proof.
  revert k e. induction l as [|b l IH]; intros k e [He Hafter]; [done|].
  destruct e as [|e]; simpl in *.
  - injection He as ->. rewrite (flatnonzero_from_none (S k) l).
    + simpl. f_equal. lia.
    + intros j. apply (Hafter (S j)). lia.
  - assert (last (flatnonzero_from (S k) l) = Some (k + S e)) as Hl.
    { rewrite (IH (S k) e); [f_equal; lia|].
      split; [done|]. intros j Hj. apply (Hafter (S j)). lia. }
    destruct b; [|done]. by rewrite last_cons, Hl.
Qed.

Lemma where0_1d (row : ndarray bool) W :
  shape row = [W] → where0 row = flatnonzero_from 0 (data row).
Proof.
  intros Hs. unfold where0. rewrite Hs. simpl.
  rewrite <- (list_fmap_id (flatnonzero_from 0 (data row))) at 2.
  apply list_fmap_ext. intros _ x _. simpl. apply Nat.div_1_r.
Qed.

(** ** The contour loop *)

Lemma any_where0 (row : ndarray bool) : any row = true ↔ where0 row ≠ [].
Proof.
  unfold any, where0. rewrite (flatnonzero_from_any 0). split.
  - intros Hne Hnil. apply fmap_nil_inv in Hnil. done.
  - intros Hne Hnil. apply Hne. by rewrite Hnil.
Qed.

Lemma mark_bounds_step i row rest sc ec guess :
  sc !! i = Some guess → ec !! i = Some guess →
  mark_bounds ((i, row) :: rest) sc ec =
  mark_bounds rest (<[i := (row_contour row guess).1]> sc)
                   (<[i := (row_contour row guess).2]> ec).
Proof.
  intros Hs He. simpl. unfold row_contour.
  destruct (any row) eqn:Hany.
  - apply any_where0 in Hany.
    destruct (where0 row) as [|w0 w'] eqn:Hw; [done|].
    destruct (last (w0 :: w')) as [wl|] eqn:Hl.
    2:{ by apply last_None in Hl. }
    unfold getitem, getitem_last, setitem. rewrite Hl. simpl.
    apply lookup_lt_Some in Hs, He.
    destruct (decide (i < length sc)); [|lia]. simpl.
    destruct (decide (i < length ec)); [|lia]. done.
  - assert (where0 row = []) as ->.
    { destruct (where0 row) eqn:Hw; [done|].
      assert (any row = true) as Hany'; [|congruence].
      apply any_where0. by rewrite Hw. }
    simpl. by rewrite !list_insert_id.
Qed.

Lemma insert_middle {X} k (l rest : list X) x y :
  length l = k → <[k := y]> (l ++ x :: rest) = l ++ y :: rest.
Proof.
  intros <-. replace (length l) with (length l + 0) by lia.
  by rewrite insert_app_r.
Qed.

Lemma mark_bounds_spec rows guess : ∀ k done_s done_e,
  length done_s = k → length done_e = k →
  mark_bounds (zip (seq k (length rows)) rows)
    (done_s ++ replicate (length rows) guess)
    (done_e ++ replicate (length rows) guess) =
  Ok (done_s ++ ((λ row, (row_contour row guess).1) <$> rows),
      done_e ++ ((λ row, (row_contour row guess).2) <$> rows)).
Proof.
  induction rows as [|row rows IH]; intros k done_s done_e Hs He; [done|].
  cbn [length seq zip zip_with replicate].
  rewrite (mark_bounds_step k row _ _ _ guess).
  2:{ rewrite <- Hs. by rewrite list_lookup_middle. }
  2:{ rewrite <- He. by rewrite list_lookup_middle. }
  rewrite (insert_middle k done_s), (insert_middle k done_e) by done.
  rewrite (cons_middle _ done_s), (cons_middle _ done_e), !app_assoc.
  rewrite (IH (S k)); [| rewrite length_app; simpl; lia ..].
  by rewrite <- !app_assoc.
Qed.

(** The bounds before the shrink step, for a mask with the shape [H; W]. *)
Lemma contour_bounds_2d (edge : ndarray bool) H W rows :
  shape edge = [H; W] → iter_axis0 edge = Ok rows → length rows = H →
  contour_bounds edge =
  Ok ((λ row, (row_contour row (middle_col W)).1) <$> rows,
      (λ row, (row_contour row (middle_col W)).2) <$> rows).
Proof.
  intros Hs Hit Hlen. unfold contour_bounds.
  rewrite Hs, Hit. simpl. fold (middle_col W). unfold enumerate.
  rewrite <- Hlen.
  apply (mark_bounds_spec rows (middle_col W) 0 [] []); done.
Qed.

(** ** The shrink step and the gathering loop *)

Lemma slice_index_nonneg len k :
  (0 ≤ k)%Z → slice_index len k = Z.to_nat k `min` len.
Proof.
  intros Hk. unfold slice_index.
  destruct (k <? 0)%Z eqn:Hneg; [lia|]. lia.
Qed.

Lemma slice_to_take {X} (row : list X) k :
  (0 ≤ k)%Z → slice_to row k = take (Z.to_nat k) row.
Proof.
  intros Hk. unfold slice_to. rewrite slice_index_nonneg by done.
  destruct (decide (Z.to_nat k ≤ length row)).
  - by rewrite Nat.min_l.
  - rewrite Nat.min_r by lia. rewrite !take_ge; [done | lia | lia].
Qed.

Lemma slice_from_drop {X} (row : list X) k :
  (0 ≤ k)%Z → slice_from row k = drop (Z.to_nat k) row.
Proof.
  intros Hk. unfold slice_from. rewrite slice_index_nonneg by done.
  destruct (decide (Z.to_nat k ≤ length row)).
  - by rewrite Nat.min_l.
  - rewrite Nat.min_r by lia. rewrite !drop_ge; [done | lia | lia].
Qed.

(** The contour of a 1-d mask row of [W >= 1] pixels lies inside the row,
    whether the row has edge pixels or not. *)
Lemma row_contour_range (row : ndarray bool) W :
  shape row = [W] → length (data row) = W → 1 ≤ W →
  let c := row_contour row (middle_col W) in
  (0 ≤ c.1 ∧ c.1 ≤ c.2 ∧ c.2 ≤ Z.of_nat W - 1)%Z.
Proof.
  intros Hs Hlen HW. unfold row_contour, middle_col. rewrite (where0_1d row W Hs).
  destruct (head (flatnonzero_from 0 (data row))) as [s|] eqn:Hh;
    [destruct (last (flatnonzero_from 0 (data row))) as [e|] eqn:Hl|]; simpl.
  - pose proof (flatnonzero_from_head_last 0 _ s e Hh Hl). lia.
  - split; [|split]; [apply Z.div_pos; lia | lia | apply Z.div_le_upper_bound; lia].
  - split; [|split]; [apply Z.div_pos; lia | lia | apply Z.div_le_upper_bound; lia].
Qed.

Lemma row_contour_edges (row : ndarray bool) W s e guess :
  shape row = [W] → first_edge_at (data row) s → last_edge_at (data row) e →
  row_contour row guess = (Z.of_nat s, Z.of_nat e).
Proof.
  intros Hs Hfirst Hlast. unfold row_contour. rewrite (where0_1d row W Hs).
  by rewrite (flatnonzero_from_head 0 _ s Hfirst), (flatnonzero_from_last 0 _ e Hlast).
Qed.

Lemma row_contour_no_edge (row : ndarray bool) guess :
  any row = false → row_contour row guess = (guess, guess).
Proof.
  intros Hany. unfold row_contour.
  destruct (where0 row) eqn:Hw; [done|].
  assert (any row = true); [|congruence]. apply any_where0. by rewrite Hw.
Qed.

(** The shrink step keeps the bounds inside [0 .. W - 1] and in order. *)
Lemma shrink_range (s e W : Z) :
  (0 ≤ s ∧ s ≤ e ∧ e ≤ W - 1)%Z →
  (0 ≤ s `div` 2 ∧ s `div` 2 ≤ (e + W) `div` 2 ∧ (e + W) `div` 2 ≤ W - 1)%Z.
Proof.
  intros (Hs & Hse & He). split; [|split].
  - apply Z.div_pos; lia.
  - apply Z.div_le_mono; lia.
  - assert ((e + W) `div` 2 < W)%Z; [|lia].
    apply Z.div_lt_upper_bound; lia.
Qed.

Section air_region.
Context {A F : Type} (astype : A → F).
Variables (image : ndarray A) (edge : ndarray bool) (H W : nat).
Hypothesis image_shape : shape image = [H; W].
Hypothesis edge_shape : shape edge = [H; W].
Hypothesis edge_wf : wf edge.

Lemma mask_rows_ok :
  ∃ mask_rows, iter_axis0 edge = Ok mask_rows ∧ length mask_rows = H ∧
    ∀ i row, mask_rows !! i = Some row → shape row = [W] ∧ length (data row) = W.
Proof using edge_shape edge_wf.
  pose proof (iter_axis0_2d edge H W edge_shape) as Hit.
  eexists. split; [exact Hit|].
  exact (rows_2d edge H W _ edge_wf edge_shape Hit).
Qed.

Lemma air_region_bounds_2d mask_rows :
  iter_axis0 edge = Ok mask_rows →
  air_region_bounds edge image =
  Ok ((λ row, (row_contour row (middle_col W)).1 `div` 2)%Z <$> mask_rows,
      (λ row, ((row_contour row (middle_col W)).2 + Z.of_nat W) `div` 2)%Z <$> mask_rows).
Proof using image_shape edge_shape edge_wf.
  intros Hit. unfold air_region_bounds.
  destruct (rows_2d edge H W mask_rows edge_wf edge_shape Hit) as [Hlen _].
  rewrite (contour_bounds_2d edge H W mask_rows edge_shape Hit Hlen).
  simpl. unfold unpack_shape2. rewrite image_shape. simpl.
  by rewrite <- !list_fmap_compose.
Qed.

Lemma gather_spec start_cols stop_cols (rows : list (ndarray A)) :
  ∀ k left right,
  k + length rows ≤ length start_cols → k + length rows ≤ length stop_cols →
  gather astype (zip (seq k (length rows)) rows) start_cols stop_cols left right =
  Ok (left ++ concat (zip_with (row_left astype) rows (drop k start_cols)),
      right ++ concat (zip_with (row_right astype) rows (drop k stop_cols))).
Proof using Type.
  induction rows as [|row rows' IH]; intros k left right Hs He.
  - simpl. by rewrite !app_nil_r.
  - cbn [length seq zip zip_with gather]. simpl in Hs, He.
    destruct (lookup_lt_is_Some_2 start_cols k) as [s Hsk]; [lia|].
    destruct (lookup_lt_is_Some_2 stop_cols k) as [e Hek]; [lia|].
    unfold getitem. rewrite Hsk, Hek. simpl.
    rewrite (IH (S k)) by lia.
    rewrite (drop_S _ _ _ Hsk), (drop_S _ _ _ Hek). simpl.
    by rewrite !app_assoc.
Qed.

(** The collection of air pixels: row by row, the pixels left of the
    start bound, then row by row the pixels from the stop bound on. *)
Lemma collect_air_pixels_2d start_cols stop_cols rows :
  air_region_bounds edge image = Ok (start_cols, stop_cols) →
  iter_axis0 image = Ok rows →
  length rows ≤ length start_cols → length rows ≤ length stop_cols →
  collect_air_pixels astype edge image =
  Ok (concat (zip_with (row_left astype) rows start_cols) ++
      concat (zip_with (row_right astype) rows stop_cols)).
Proof using Type.
  intros Hb Hit Hs He. unfold collect_air_pixels. rewrite Hb. simpl. rewrite Hit. simpl.
  unfold enumerate. by rewrite (gather_spec start_cols stop_cols rows 0 [] []).
Qed.

End air_region.

(** ** The claims on one image *)

Lemma length_concat_ge {X} (ls : list (list X)) :
  Forall (λ l, 1 ≤ length l) ls → length ls ≤ length (concat ls).
Proof.
  induction 1 as [|l ls Hl _ IH]; simpl; [done|].
  rewrite length_app. lia.
Qed.

Lemma last_drop_lt {X} (l : list X) n :
  n < length l → last (drop n l) = last l.
Proof.
  intros Hn. rewrite <- (take_drop n l) at 2.
  rewrite last_app. destruct (last (drop n l)) eqn:Hl; [done|].
  apply last_None in Hl. apply (f_equal length) in Hl.
  rewrite length_drop in Hl. simpl in Hl. lia.
Qed.

Lemma shape_2d_nonempty {X} (a : ndarray X) H W :
  shape a = [H; W] → size a ≠ 0 → 1 ≤ H ∧ 1 ≤ W.
Proof. unfold size. intros ->. simpl. nia. Qed.

Section per_image.
Context {A F : Type}.
Variable astype : A → F.
Variable mean : list F → F.
Variable true_divide : A → F → F.
Variable canny : ndarray A → Z → result (ndarray bool).
Hypothesis canny_ok : canny_contract canny.

(** What the detection computes on a 2-d image for which the edge
    detector answered: the mask rows and the shrunken bounds. *)
Lemma bounds_2d image sigma edge H W :
  shape image = [H; W] → canny image sigma = Ok edge →
  1 ≤ H ∧ 1 ≤ W ∧
  ∃ mask_rows,
    iter_axis0 edge = Ok mask_rows ∧ length mask_rows = H ∧
    (∀ i row, mask_rows !! i = Some row → shape row = [W] ∧ length (data row) = W) ∧
    air_region_bounds edge image =
      Ok ((λ row, (row_contour row (middle_col W)).1 `div` 2)%Z <$> mask_rows,
          (λ row, ((row_contour row (middle_col W)).2 + Z.of_nat W) `div` 2)%Z
            <$> mask_rows).
Proof using canny_ok.
  intros Hshape Hcanny.
  destruct (canny_ok image sigma edge Hcanny) as (_ & Hsize & Hes & Hewf).
  rewrite Hshape in Hes.
  destruct (shape_2d_nonempty image H W Hshape Hsize) as [HH HW].
  split; [done|]. split; [done|].
  destruct (mask_rows_ok edge H W Hes Hewf) as (mask_rows & Hmit & Hmlen & Hmrows).
  exists mask_rows.
  split; [exact Hmit|]. split; [exact Hmlen|]. split; [exact Hmrows|].
  exact (air_region_bounds_2d image edge H W Hshape Hes Hewf mask_rows Hmit).
Qed.

(** The collection of air pixels, row by row. *)
Lemma collection_2d image sigma edge H W start_cols stop_cols :
  shape image = [H; W] → canny image sigma = Ok edge →
  air_region_bounds edge image = Ok (start_cols, stop_cols) →
  ∃ rows,
    iter_axis0 image = Ok rows ∧ length rows = H ∧
    collect_air_pixels astype edge image =
      Ok (concat (zip_with (row_left astype) rows start_cols) ++
          concat (zip_with (row_right astype) rows stop_cols)).
Proof using canny_ok.
  intros Hshape Hcanny Hb.
  destruct (bounds_2d image sigma edge H W Hshape Hcanny)
    as (_ & _ & mask_rows & _ & Hmlen & _ & Hb').
  rewrite Hb in Hb'. injection Hb' as -> ->.
  exists (mk_ndarray [W] <$> chunks H W (data image)).
  pose proof (iter_axis0_2d image H W Hshape) as Hit.
  split; [exact Hit|]. split; [by rewrite length_fmap, length_chunks|].
  apply (collect_air_pixels_2d astype image edge _ _ _ Hb Hit);
    rewrite !length_fmap, length_chunks, Hmlen; lia.
Qed.

(** C5. For every 2-d image of width [W] for which the edge detector
    answers, whatever the mask holds, the bounds after the shrink step
    exist for every row [i] and satisfy
    [0 <= start_cols[i] <= stop_cols[i] <= W]. *)
Theorem row_bounds_invariant image sigma edge H W :
  shape image = [H; W] → canny image sigma = Ok edge →
  ∃ start_cols stop_cols,
    air_region_bounds edge image = Ok (start_cols, stop_cols) ∧
    length start_cols = H ∧ length stop_cols = H ∧
    ∀ i, i < H → ∃ s e,
      start_cols !! i = Some s ∧ stop_cols !! i = Some e ∧
      (0 ≤ s ∧ s ≤ e ∧ e ≤ Z.of_nat W)%Z.
Proof using canny_ok.
  intros Hshape Hcanny.
  destruct (bounds_2d image sigma edge H W Hshape Hcanny)
    as (HH & HW & mask_rows & _ & Hmlen & Hmrows & Hb).
  eexists _, _. split; [exact Hb|].
  rewrite !length_fmap. split; [done|]. split; [done|].
  intros i Hi.
  destruct (lookup_lt_is_Some_2 mask_rows i) as [row Hrow]; [lia|].
  destruct (Hmrows i row Hrow) as [Hrs Hrl].
  eexists _, _. rewrite !list_lookup_fmap, Hrow. simpl.
  split; [done|]. split; [done|].
  pose proof (row_contour_range row W Hrs Hrl HW) as Hc. simpl in Hc.
  pose proof (shrink_range _ _ (Z.of_nat W) Hc). lia.
Qed.

(** C4. In a row whose mask has its first edge pixel at column [s] and
    its last one at column [e], the bounds used to gather the air pixels
    are [s // 2] and [(e + W) // 2], and what the row contributes to the
    collection is its pixels of column index below [s // 2] and its
    pixels of column index [(e + W) // 2] and above. *)
Theorem edge_row_bounds_and_pixels
    image sigma edge H W mask_rows rows i mask_row row s e :
  shape image = [H; W] → canny image sigma = Ok edge →
  iter_axis0 edge = Ok mask_rows → mask_rows !! i = Some mask_row →
  iter_axis0 image = Ok rows → rows !! i = Some row →
  first_edge_at (data mask_row) s → last_edge_at (data mask_row) e →
  ∃ start_cols stop_cols,
    air_region_bounds edge image = Ok (start_cols, stop_cols) ∧
    start_cols !! i = Some (Z.of_nat s `div` 2)%Z ∧
    stop_cols !! i = Some ((Z.of_nat e + Z.of_nat W) `div` 2)%Z ∧
    collect_air_pixels astype edge image =
      Ok (concat (zip_with (row_left astype) rows start_cols) ++
          concat (zip_with (row_right astype) rows stop_cols)) ∧
    row_left astype row (Z.of_nat s `div` 2) =
      astype <$> take (s `div` 2) (data row) ∧
    row_right astype row ((Z.of_nat e + Z.of_nat W) `div` 2) =
      astype <$> drop ((e + W) `div` 2) (data row).
Proof using canny_ok.
  intros Hshape Hcanny Hmit Hmrow Hit Hrow Hfirst Hlast.
  destruct (bounds_2d image sigma edge H W Hshape Hcanny)
    as (HH & HW & mask_rows' & Hmit' & Hmlen & Hmrows & Hb).
  rewrite Hmit in Hmit'. injection Hmit' as <-.
  destruct (collection_2d image sigma edge H W _ _ Hshape Hcanny Hb)
    as (rows' & Hit' & _ & Hpixels).
  rewrite Hit in Hit'. injection Hit' as <-.
  destruct (Hmrows i mask_row Hmrow) as [Hrs _].
  eexists _, _. split; [exact Hb|].
  rewrite !list_lookup_fmap, Hmrow. simpl.
  rewrite (row_contour_edges mask_row W s e _ Hrs Hfirst Hlast). simpl.
  split; [done|]. split; [done|]. split; [exact Hpixels|].
  unfold row_left, row_right.
  rewrite slice_to_take by (apply Z.div_pos; lia).
  rewrite slice_from_drop by (apply Z.div_pos; lia).
  change 2%Z with (Z.of_nat 2).
  by rewrite <- Nat2Z.inj_add, <- !Nat2Z.inj_div, !Nat2Z.id.
Qed.

(** C9. On a 2-d image for which the edge detector answers (it has at
    least one row and one column), every shrunken stop bound is at most
    [W - 1], so every row contributes at least its last pixel: the
    collection holds at least [H] pixels and is not empty. *)
Theorem air_pixels_never_empty image sigma edge H W :
  wf image → shape image = [H; W] → canny image sigma = Ok edge →
  ∃ start_cols stop_cols rows pixels,
    air_region_bounds edge image = Ok (start_cols, stop_cols) ∧
    iter_axis0 image = Ok rows ∧
    collect_air_pixels astype edge image = Ok pixels ∧
    pixels = concat (zip_with (row_left astype) rows start_cols) ++
             concat (zip_with (row_right astype) rows stop_cols) ∧
    (∀ i, i < H → ∃ row stop_col x,
       rows !! i = Some row ∧ stop_cols !! i = Some stop_col ∧
       (stop_col ≤ Z.of_nat W - 1)%Z ∧
       last (data row) = Some x ∧
       last (row_right astype row stop_col) = Some (astype x)) ∧
    H ≤ length pixels ∧ pixels ≠ [].
Proof using canny_ok.
  intros Hwf Hshape Hcanny.
  destruct (bounds_2d image sigma edge H W Hshape Hcanny)
    as (HH & HW & mask_rows & Hmit & Hmlen & Hmrows & Hb).
  destruct (collection_2d image sigma edge H W _ _ Hshape Hcanny Hb)
    as (rows & Hit & Hlen & Hpixels).
  destruct (rows_2d image H W rows Hwf Hshape Hit) as [_ Hrows].
  set (stop_cols := (λ row, ((row_contour row (middle_col W)).2 + Z.of_nat W) `div` 2)%Z
                      <$> mask_rows) in *.
  assert (∀ i row stop_col, rows !! i = Some row → stop_cols !! i = Some stop_col →
            (stop_col ≤ Z.of_nat W - 1)%Z ∧
            ∃ x, last (data row) = Some x ∧
                 last (row_right astype row stop_col) = Some (astype x)) as Hright.
  { intros i row stop_col Hrow Hstop.
    unfold stop_cols in Hstop. rewrite list_lookup_fmap in Hstop.
    destruct (mask_rows !! i) as [mask_row|] eqn:Hmrow; [|done].
    injection Hstop as <-.
    destruct (Hmrows i mask_row Hmrow) as [Hrs Hrl].
    pose proof (row_contour_range mask_row W Hrs Hrl HW) as Hc. simpl in Hc.
    pose proof (shrink_range _ _ (Z.of_nat W) Hc) as (Hlo0 & Hlo & Hhi).
    split; [exact Hhi|].
    destruct (Hrows i row Hrow) as [_ Hrowlen].
    destruct (last (data row)) as [x|] eqn:Hx.
    2:{ apply last_None in Hx. rewrite Hx in Hrowlen. simpl in Hrowlen. lia. }
    exists x. split; [done|].
    unfold row_right. rewrite slice_from_drop by lia.
    rewrite fmap_last, last_drop_lt by lia. by rewrite Hx. }
  assert (H ≤ length (concat (zip_with (row_right astype) rows stop_cols))) as Hge.
  { assert (length (zip_with (row_right astype) rows stop_cols) = H) as <-.
    { rewrite length_zip_with. unfold stop_cols. rewrite length_fmap. lia. }
    apply length_concat_ge. apply Forall_lookup_2. intros i l Hl.
    apply lookup_zip_with_Some in Hl as (row & stop_col & -> & Hrow & Hstop).
    destruct (Hright i row stop_col Hrow Hstop) as (_ & x & _ & Hlast).
    destruct (row_right astype row stop_col); [done | simpl; lia]. }
  eexists _, stop_cols, rows, _.
  split; [exact Hb|]. split; [exact Hit|]. split; [exact Hpixels|].
  split; [done|]. split; [|split].
  - intros i Hi.
    destruct (lookup_lt_is_Some_2 rows i) as [row Hrow]; [lia|].
    destruct (lookup_lt_is_Some_2 stop_cols i) as [stop_col Hstop].
    { unfold stop_cols. rewrite length_fmap. lia. }
    destruct (Hright i row stop_col Hrow Hstop) as (Hle & x & Hx & Hlast).
    by exists row, stop_col, x.
  - rewrite length_app. lia.
  - intros Hnil. apply (f_equal length) in Hnil.
    rewrite length_app in Hnil. simpl in Hnil. lia.
Qed.

(** C1, as the code has it. The correction has no check of the factor:
    on every 2-d image for which the edge detector answers, it gathers
    the air pixels and returns [image / factor] for [factor] their mean,
    whatever that mean is; it raises nothing of its own. *)
Theorem correction_divides_by_any_factor image sigma edge H W :
  shape image = [H; W] → canny image sigma = Ok edge →
  ∃ pixels,
    collect_air_pixels astype edge image = Ok pixels ∧
    intensity_fluctuation_correction_skimage
      astype mean true_divide canny image sigma =
    Ok (divide true_divide image (mean pixels)).
Proof using canny_ok.
  intros Hshape Hcanny.
  destruct (bounds_2d image sigma edge H W Hshape Hcanny)
    as (_ & _ & mask_rows & _ & _ & _ & Hb).
  destruct (collection_2d image sigma edge H W _ _ Hshape Hcanny Hb)
    as (rows & _ & _ & Hpixels).
  eexists. split; [exact Hpixels|].
  unfold intensity_fluctuation_correction_skimage.
  rewrite Hcanny. simpl. by rewrite Hpixels.
Qed.

(** A row without edge pixels. The contour loop leaves its bounds at the
    middle column, which would make the whole row air; the shrink step moves
    them apart, and a row of two pixels or more gives fewer pixels than it
    has. *)
Lemma edge_free_row_bounds image sigma edge H W mask_rows i mask_row :
  shape image = [H; W] → canny image sigma = Ok edge →
  iter_axis0 edge = Ok mask_rows → mask_rows !! i = Some mask_row →
  any mask_row = false →
  ∃ contour_start contour_stop start_cols stop_cols,
    contour_bounds edge = Ok (contour_start, contour_stop) ∧
    contour_start !! i = Some (middle_col W) ∧
    contour_stop !! i = Some (middle_col W) ∧
    air_region_bounds edge image = Ok (start_cols, stop_cols) ∧
    start_cols !! i = Some (middle_col W `div` 2)%Z ∧
    stop_cols !! i = Some ((middle_col W + Z.of_nat W) `div` 2)%Z.
Proof using canny_ok.
  intros Hshape Hcanny Hmit Hmrow Hany.
  destruct (canny_ok image sigma edge Hcanny) as (_ & _ & Hes & Hewf).
  rewrite Hshape in Hes.
  destruct (rows_2d edge H W mask_rows Hewf Hes Hmit) as [Hmlen _].
  eexists _, _, _, _.
  split; [exact (contour_bounds_2d edge H W mask_rows Hes Hmit Hmlen)|].
  rewrite !list_lookup_fmap, Hmrow. simpl.
  rewrite (row_contour_no_edge mask_row _ Hany). simpl.
  split; [done|]. split; [done|].
  split; [exact (air_region_bounds_2d image edge H W Hshape Hes Hewf mask_rows Hmit)|].
  rewrite !list_lookup_fmap, Hmrow. simpl.
  by rewrite (row_contour_no_edge mask_row _ Hany).
Qed.

Lemma edge_free_row_misses_pixels (row : ndarray A) W :
  length (data row) = W → 2 ≤ W →
  length (row_left astype row (middle_col W `div` 2)) +
  length (row_right astype row ((middle_col W + Z.of_nat W) `div` 2)) < W.
Proof using Type.
  intros Hlen HW. unfold row_left, row_right, middle_col.
  set (m := ((Z.of_nat W - 1) `div` 2)%Z).
  assert (0 ≤ m ∧ m ≤ Z.of_nat W - 1)%Z as [Hm0 Hm1].
  { unfold m. split; [apply Z.div_pos; lia | apply Z.div_le_upper_bound; lia]. }
  assert (0 ≤ m `div` 2 ∧ m `div` 2 < (m + Z.of_nat W) `div` 2 ∧
          (m + Z.of_nat W) `div` 2 ≤ Z.of_nat W - 1)%Z as (Hlo & Hlt & Hhi).
  { clearbody m. Z.div_mod_to_equations. lia. }
  rewrite slice_to_take, slice_from_drop by lia.
  rewrite !length_fmap, length_take, length_drop. lia.
Qed.

End per_image.

(** ** The worker pool *)

Lemma map_result_cons {X Y} (f : X → result Y) x l :
  map_result f (x :: l) = (y <- f x ;; ys <- map_result f l ;; Ok (y :: ys)).
Proof. done. Qed.

Lemma map_result_app {X Y} (f : X → result Y) l1 l2 :
  map_result f (l1 ++ l2) =
  (ys1 <- map_result f l1 ;; ys2 <- map_result f l2 ;; Ok (ys1 ++ ys2)).
Proof.
  induction l1 as [|x l1 IH]; simpl.
  - by destruct (map_result f l2).
  - destruct (f x) as [y|e]; simpl; [|done]. rewrite IH.
    destruct (map_result f l1) as [ys1|e]; simpl; [|done].
    by destruct (map_result f l2).
Qed.

Lemma map_result_Ok {X Y} (f : X → result Y) l ys :
  map_result f l = Ok ys → Forall2 (λ x y, f x = Ok y) l ys.
Proof.
  revert ys. induction l as [|x l IH]; intros ys; simpl.
  - intros [= <-]. constructor.
  - destruct (f x) as [y|e] eqn:Hy; simpl; [|done].
    destruct (map_result f l) as [ys'|e]; simpl; [|done].
    intros [= <-]. constructor; [done | by apply IH].
Qed.

Lemma map_result_Err {X Y} (f : X → result Y) l x :
  x ∈ l → is_Err (f x) → is_Err (map_result f l).
Proof.
  intros Hin [e He]. induction l as [|x' l IH]; [by apply elem_of_nil in Hin|].
  simpl. apply elem_of_cons in Hin as [<- | Hin].
  - rewrite He. by exists e.
  - destruct (f x') as [y|e']; simpl; [|by eexists].
    destruct (IH Hin) as [e'' ->]. by eexists.
Qed.

(** Cutting the input into batches changes nothing to what the pool
    returns: the results, or the first exception, in the order of the
    input. *)
Lemma map_result_batched_aux {X Y} (f : X → result Y) chunksize :
  1 ≤ chunksize → ∀ fuel l, length l ≤ fuel →
  (per_batch <- map_result (map_result f) (batched_aux fuel chunksize l) ;;
   Ok (concat per_batch)) = map_result f l.
Proof.
  intros Hc. induction fuel as [|fuel IH]; intros l Hl.
  - destruct l; [done | simpl in Hl; lia].
  - destruct l as [|x l]; [done|].
    cbn [batched_aux]. rewrite (map_result_cons (map_result f)).
    replace (map_result f (x :: l))
      with (map_result f (take chunksize (x :: l) ++ drop chunksize (x :: l)))
      by (by rewrite take_drop).
    rewrite map_result_app.
    destruct (map_result f (take chunksize (x :: l))) as [ys1|e]; simpl; [|done].
    rewrite <- (IH (drop chunksize (x :: l))).
    2:{ rewrite length_drop. simpl in *. lia. }
    by destruct (map_result (map_result f)
                   (batched_aux fuel chunksize (drop chunksize (x :: l)))).
Qed.

Lemma map_result_batched {X Y} (f : X → result Y) chunksize l :
  1 ≤ chunksize →
  (per_batch <- map_result (map_result f) (batched chunksize l) ;;
   Ok (concat per_batch)) = map_result f l.
Proof. intros Hc. by apply map_result_batched_aux. Qed.

Lemma process_map_run {A T X Y} (fn : X → result Y) l (kwargs : process_map_kwargs T)
    (w : world A) :
  process_map fn l kwargs w =
  (mk_world (heap w) (segments w) (tracked w)
     (log w ++ [EvProcessMap (length l) (kw_max_workers kwargs) (kw_chunksize kwargs)
                  (bool_decide (is_Some (kw_tqdm_class kwargs)))]),
   if (kw_max_workers kwargs <=? 0)%Z then Err ValueError
   else if (kw_chunksize kwargs <? 1)%Z then Err ValueError
   else map_result fn l).
Proof.
  unfold process_map, bindM, emit, raise, lift. simpl.
  destruct (kw_max_workers kwargs <=? 0)%Z; [done|].
  destruct (kw_chunksize kwargs <? 1)%Z eqn:Hc; [done|].
  f_equal. apply map_result_batched. lia.
Qed.

(** ** The dispatcher *)

Lemma skimage_shape {A F} astype mean true_divide canny (image : ndarray A) sigma
    (out : ndarray F) :
  intensity_fluctuation_correction_skimage astype mean true_divide canny image sigma
    = Ok out →
  shape out = shape image.
Proof.
  unfold intensity_fluctuation_correction_skimage. intros Hrun.
  apply bind_Ok in Hrun as (edge & _ & Hrun).
  apply bind_Ok in Hrun as (pixels & _ & Hrun).
  by injection Hrun as <-.
Qed.

(** On an array that is not 2-d the per-image correction raises, whatever
    the edge detector does: at the latest when the shape is unpacked. *)
Lemma skimage_not_2d {A F} astype mean true_divide canny (image : ndarray A) sigma :
  ndim image ≠ 2 →
  is_Err (intensity_fluctuation_correction_skimage (F:=F)
            astype mean true_divide canny image sigma).
Proof.
  intros Hnd. unfold intensity_fluctuation_correction_skimage.
  destruct (canny image sigma) as [edge|e]; simpl; [|by eexists].
  unfold collect_air_pixels, air_region_bounds.
  destruct (contour_bounds edge) as [[start_cols stop_cols]|e]; simpl; [|by eexists].
  unfold unpack_shape2, ndim in *.
  destruct (shape image) as [|h [|w [|]]]; simpl in *;
    [by exists ValueError | by exists ValueError | done | by exists ValueError].
Qed.

Lemma np_array_same_shape {X} (rst : list (ndarray X)) shp :
  rst ≠ [] → Forall (λ b, shape b = shp) rst →
  np_array rst = Ok (mk_ndarray (length rst :: shp) (concat (data <$> rst))).
Proof.
  intros Hne Hall. destruct rst as [|a rst']; [done|]. unfold np_array.
  assert (shape a = shp) as Ha by (by inversion Hall).
  rewrite bool_decide_eq_true_2; [by rewrite Ha|].
  eapply Forall_impl; [exact Hall|]. simpl. congruence.
Qed.

Lemma difference_after_union (l : loc) (segs : gset loc) :
  ({[l]} ∪ segs) ∖ {[l]} = segs ∖ {[l]}.
Proof.
  apply set_eq. intros x.
  rewrite !elem_of_difference, elem_of_union, elem_of_singleton. tauto.
Qed.

Lemma difference_fresh (l : loc) (segs : gset loc) : l ∉ segs → segs ∖ {[l]} = segs.
Proof.
  intros Hl. apply set_eq. intros x.
  rewrite elem_of_difference, elem_of_singleton. split; [tauto|].
  intros Hx. split; [done|]. by intros ->.
Qed.

Section dispatcher_run.
Context {A F T : Type}.
Variable astype : A → F.
Variable mean : list F → F.
Variable true_divide : A → F → F.
Variable canny : ndarray A → Z → result (ndarray bool).
Variable zero : A.
Variable itemsize : nat.
Variable calculate_chunksize : nat → Z → Z.
Variable normalize_bg :
  gmap loc (list A) → array_ref → Z → Z → gmap loc (list A) * result (ndarray F).

Let skimage := intensity_fluctuation_correction_skimage astype mean true_divide canny.
Let adaptive := adaptive_path (T:=T) astype mean true_divide canny zero itemsize
                  calculate_chunksize.
Let ifc := _intensity_fluctuation_correction (T:=T) astype mean true_divide canny
             zero itemsize calculate_chunksize normalize_bg.

(** The frames the workers get: the rows of the shared copy along the
    first axis. The copy is taken after the segment was created. *)
Let shm_frames (w : world A) (ct : array_ref) (n : nat) (rest : list nat)
    : list (ndarray A) :=
  let l := fresh (dom (heap w)) in
  let h := <[l := replicate (nbytes itemsize ct `div` itemsize) zero]> (heap w) in
  mk_ndarray rest <$> chunks n (prod_list rest) (default [] (h !! buf ct)).

(** The whole run of the adaptive path, world and outcome. *)
Lemma adaptive_path_run ct n rest sigma max_workers tqdm_class (w : world A) :
  ref_shape ct = n :: rest →
  let l := fresh (dom (heap w)) in
  let chunksize := calculate_chunksize n max_workers in
  adaptive ct sigma max_workers tqdm_class w =
  if decide (nbytes itemsize ct = 0) then
    (mk_world (heap w) (segments w) (tracked w)
       (log w ++ [EvManagerStart; EvManagerShutdown]),
     Err ValueError)
  else
    (mk_world (heap w) (segments w ∖ {[l]}) (tracked w)
       (log w ++ [EvManagerStart; EvShmCreate l (nbytes itemsize ct);
                  EvCopyTo l (buf ct);
                  EvProcessMap n max_workers chunksize
                    (bool_decide (is_Some tqdm_class));
                  EvShmUnlink l; EvManagerShutdown]),
     if (max_workers <=? 0)%Z then Err ValueError
     else if (chunksize <? 1)%Z then Err ValueError
     else map_result (λ img, skimage img sigma) (shm_frames w ct n rest)).
Proof using Type.
  intros Hshape l chunksize.
  unfold adaptive, adaptive_path, with_SharedMemoryManager, bindM, SharedMemory.
  simpl. destruct (decide (nbytes itemsize ct = 0)) as [Hz|Hnz].
  - unfold shutdown. simpl. by rewrite <- app_assoc.
  - simpl. rewrite Hshape. simpl.
    unfold frames, load, iter_axis0. simpl.
    rewrite process_map_run. simpl. rewrite lookup_insert_eq. simpl.
    rewrite length_fmap, length_chunks.
    unfold shutdown, unlink. simpl. f_equal. f_equal.
    + rewrite !delete_insert_eq. apply delete_id.
      apply not_elem_of_dom. apply is_fresh.
    + apply difference_after_union.
    + by rewrite <- !app_assoc.
Qed.

Lemma ifc_invalid_rank ct air_pixels sigma max_workers tqdm_class (w : world A) :
  length (ref_shape ct) ≠ 2 → length (ref_shape ct) ≠ 3 →
  ifc ct air_pixels sigma max_workers tqdm_class w = (w, Err ValueError).
Proof using Type.
  intros H2 H3. unfold ifc, _intensity_fluctuation_correction.
  rewrite bool_decide_eq_false_2; [done|].
  rewrite !elem_of_cons, elem_of_nil. tauto.
Qed.

Lemma ifc_valid_rank ct air_pixels sigma max_workers tqdm_class (w : world A) :
  length (ref_shape ct) = 2 ∨ length (ref_shape ct) = 3 →
  ifc ct air_pixels sigma max_workers tqdm_class w =
  if (air_pixels <? 0)%Z
  then (let '(w1, r) := adaptive ct sigma max_workers tqdm_class w in
        (w1, rst <- r ;; np_array rst))
  else tomopy_normalize_bg normalize_bg ct air_pixels max_workers w.
Proof using Type.
  intros Hrank. unfold ifc, _intensity_fluctuation_correction.
  rewrite bool_decide_eq_true_2.
  2:{ rewrite !elem_of_cons. tauto. }
  simpl. destruct (air_pixels <? 0)%Z; [|done].
  unfold bindM, lift. fold adaptive.
  by destruct (adaptive ct sigma max_workers tqdm_class w) as [w1 [rst|e]].
Qed.

(** The run of the dispatcher on the adaptive path, case by case. *)
Lemma ifc_adaptive_run ct air_pixels sigma max_workers tqdm_class (w : world A) :
  (air_pixels < 0)%Z →
  let l := fresh (dom (heap w)) in
  let run := ifc ct air_pixels sigma max_workers tqdm_class w in
  (length (ref_shape ct) ≠ 2 ∧ length (ref_shape ct) ≠ 3 ∧
   run = (w, Err ValueError)) ∨
  (nbytes itemsize ct = 0 ∧
   run = (mk_world (heap w) (segments w) (tracked w)
            (log w ++ [EvManagerStart; EvManagerShutdown]), Err ValueError)) ∨
  (∃ n rest, ref_shape ct = n :: rest ∧ 1 ≤ n ∧
     (length rest = 1 ∨ length rest = 2) ∧ nbytes itemsize ct ≠ 0 ∧
     let chunksize := calculate_chunksize n max_workers in
     run =
     (mk_world (heap w) (segments w ∖ {[l]}) (tracked w)
        (log w ++ [EvManagerStart; EvShmCreate l (nbytes itemsize ct);
                   EvCopyTo l (buf ct);
                   EvProcessMap n max_workers chunksize
                     (bool_decide (is_Some tqdm_class));
                   EvShmUnlink l; EvManagerShutdown]),
      rst <- (if (max_workers <=? 0)%Z then Err ValueError
              else if (chunksize <? 1)%Z then Err ValueError
              else map_result (λ img, skimage img sigma) (shm_frames w ct n rest)) ;;
      np_array rst)).
Proof using Type.
  intros Hair l run.
  destruct (decide (length (ref_shape ct) = 2 ∨ length (ref_shape ct) = 3))
    as [Hrank|Hrank].
  2:{ left. split; [tauto|]. split; [tauto|].
      apply ifc_invalid_rank; tauto. }
  right. unfold run. rewrite (ifc_valid_rank _ _ _ _ _ _ Hrank).
  apply Z.ltb_lt in Hair. rewrite Hair.
  destruct (ref_shape ct) as [|n rest] eqn:Hshape; [simpl in Hrank; lia|].
  rewrite (adaptive_path_run ct n rest sigma max_workers tqdm_class w Hshape).
  destruct (decide (nbytes itemsize ct = 0)) as [Hz|Hnz]; [by left|].
  right. exists n, rest. split; [done|].
  split.
  { unfold nbytes in Hnz. rewrite Hshape in Hnz. simpl in Hnz. nia. }
  split; [simpl in Hrank; lia|]. done.
Qed.


(** C3. An array whose rank is neither 2 nor 3 is refused with the world
    untouched (nothing allocated, nothing dispatched), whatever the sign
    of [air_pixels]. With a valid rank, a non-negative [air_pixels] is a
    single call of [tomopy.normalize_bg] with that value as [air], and a
    negative one is the adaptive path, which starts the shared-memory
    manager and never calls [tomopy.normalize_bg]. *)
Theorem dispatch_policy ct air_pixels sigma max_workers tqdm_class (w : world A) :
  (length (ref_shape ct) ≠ 2 → length (ref_shape ct) ≠ 3 →
     ifc ct air_pixels sigma max_workers tqdm_class w = (w, Err ValueError)) ∧
  (length (ref_shape ct) = 2 ∨ length (ref_shape ct) = 3 →
     ((0 ≤ air_pixels)%Z →
        ifc ct air_pixels sigma max_workers tqdm_class w =
          tomopy_normalize_bg normalize_bg ct air_pixels max_workers w ∧
        log (ifc ct air_pixels sigma max_workers tqdm_class w).1 =
          log w ++ [EvNormalizeBg air_pixels max_workers]) ∧
     ((air_pixels < 0)%Z →
        ifc ct air_pixels sigma max_workers tqdm_class w =
          (rst <-- adaptive ct sigma max_workers tqdm_class ;; lift (np_array rst)) w ∧
        ∃ evs,
          log (ifc ct air_pixels sigma max_workers tqdm_class w).1 =
            log w ++ EvManagerStart :: evs ∧
          ∀ air ncore, EvNormalizeBg air ncore ∉ evs)).
Proof using Type.
  split; [apply ifc_invalid_rank|].
  intros Hrank. split.
  - intros Hair. rewrite (ifc_valid_rank _ _ _ _ _ _ Hrank).
    assert ((air_pixels <? 0)%Z = false) as -> by lia.
    split; [done|]. unfold tomopy_normalize_bg.
    by destruct (normalize_bg (heap w) ct air_pixels max_workers).
  - intros Hair. split.
    + unfold ifc, _intensity_fluctuation_correction.
      rewrite bool_decide_eq_true_2.
      2:{ rewrite !elem_of_cons. tauto. }
      simpl. by assert ((air_pixels <? 0)%Z = true) as -> by lia.
    + destruct (ifc_adaptive_run ct air_pixels sigma max_workers tqdm_class w Hair)
        as [(H2 & H3 & _) | [(_ & ->) | (n & rest & _ & _ & _ & _ & ->)]].
      * lia.
      * eexists. split; [done|]. intros air ncore Hin.
        apply elem_of_cons in Hin as [|Hin]; [done|]. by apply elem_of_nil in Hin.
      * eexists. split; [done|]. intros air ncore Hin.
        repeat (apply elem_of_cons in Hin as [|Hin]; [done|]).
        by apply elem_of_nil in Hin.
Qed.

(** C7. With a chunk size helper that answers at least 1 for a stack of
    at least one frame and at least one worker, the adaptive path
    returns the same outcome, the same corrected stack or the same
    exception, with one worker and with any number [N > 1] of workers. *)
Theorem worker_count_invariance ct air_pixels sigma N tqdm_class (w : world A) :
  (air_pixels < 0)%Z → (1 < N)%Z →
  (∀ n max_workers, 1 ≤ n → (1 ≤ max_workers)%Z →
     (1 ≤ calculate_chunksize n max_workers)%Z) →
  (ifc ct air_pixels sigma 1 tqdm_class w).2 =
  (ifc ct air_pixels sigma N tqdm_class w).2.
Proof using Type.
  intros Hair HN Hchunk.
  destruct (ifc_adaptive_run ct air_pixels sigma 1 tqdm_class w Hair)
    as [(H2 & H3 & ->) | [(Hz & ->) | (n & rest & Hshape & Hn & Hrest & Hnz & ->)]];
  destruct (ifc_adaptive_run ct air_pixels sigma N tqdm_class w Hair)
    as [(H2' & H3' & ->) | [(Hz' & ->) |
        (n' & rest' & Hshape' & Hn' & Hrest' & Hnz' & ->)]];
    simpl; try done;
    try (rewrite Hshape in *; simpl in *; lia);
    try (rewrite Hshape' in *; simpl in *; lia).
  rewrite Hshape in Hshape'. injection Hshape' as <- <-.
  assert ((N <=? 0)%Z = false) as -> by lia.
  pose proof (Hchunk n 1%Z Hn ltac:(lia)).
  pose proof (Hchunk n N Hn ltac:(lia)).
  assert ((calculate_chunksize n 1 <? 1)%Z = false) as -> by lia.
  by assert ((calculate_chunksize n N <? 1)%Z = false) as -> by lia.
Qed.

Lemma shm_frames_load ct n rest (w : world A) :
  ref_shape ct = n :: rest → buf ct ∈ dom (heap w) →
  iter_axis0 (load w ct) = Ok (shm_frames w ct n rest).
Proof using Type.
  intros Hshape Hct. unfold iter_axis0, load, shm_frames. simpl.
  rewrite Hshape. rewrite lookup_insert_ne; [done|].
  intros Heq. rewrite <- Heq in Hct. by apply is_fresh in Hct.
Qed.

(** C8. On the adaptive path, however the call ends (a result, a
    refused argument, an exception of a worker), the world it leaves has
    the shared-memory segments it had before and the buffers it had
    before: the segment created for the copy was unlinked. And when the
    correction of one frame raises, the call raises: no partial result
    is returned. *)
Theorem shared_memory_released
    ct air_pixels sigma max_workers tqdm_class (w w' : world A) r :
  (air_pixels < 0)%Z → segments w ⊆ dom (heap w) →
  ifc ct air_pixels sigma max_workers tqdm_class w = (w', r) →
  segments w' = segments w ∧ tracked w' = tracked w ∧ heap w' = heap w ∧
  (∃ evs, log w' = log w ++ evs ∧
     ∀ l size, EvShmCreate l size ∈ evs → EvShmUnlink l ∈ evs) ∧
  (∀ imgs img,
     buf ct ∈ dom (heap w) → iter_axis0 (load w ct) = Ok imgs →
     img ∈ imgs → is_Err (skimage img sigma) → is_Err r).
Proof using Type.
  intros Hair Hinv Hrun.
  assert (fresh (dom (heap w)) ∉ segments w) as Hfresh.
  { intros Hin. apply Hinv in Hin. by apply is_fresh in Hin. }
  destruct (ifc_adaptive_run ct air_pixels sigma max_workers tqdm_class w Hair)
    as [(_ & _ & Hr) | [(_ & Hr) | (n & rest & Hshape & _ & _ & _ & Hr)]];
    rewrite Hr in Hrun; injection Hrun as <- <-; simpl.
  - split; [done|]. split; [done|]. split; [done|]. split.
    + exists []. split; [by rewrite app_nil_r|].
      intros l size Hin. by apply elem_of_nil in Hin.
    + intros. by eexists.
  - split; [done|]. split; [done|]. split; [done|]. split.
    + eexists. split; [done|]. intros l size Hin.
      repeat (apply elem_of_cons in Hin as [|Hin]; [done|]).
      by apply elem_of_nil in Hin.
    + intros. by eexists.
  - split; [by apply difference_fresh|]. split; [done|]. split; [done|]. split.
    + eexists. split; [done|]. intros l size Hin.
      apply elem_of_cons in Hin as [|Hin]; [done|].
      apply elem_of_cons in Hin as [[= -> _]|Hin].
      { rewrite !elem_of_cons. tauto. }
      repeat (apply elem_of_cons in Hin as [|Hin]; [done|]).
      by apply elem_of_nil in Hin.
    + intros imgs img Hct Himgs Himg Herr.
      rewrite (shm_frames_load ct n rest w Hshape Hct) in Himgs.
      injection Himgs as <-.
      destruct (max_workers <=? 0)%Z; [by eexists|].
      destruct (calculate_chunksize n max_workers <? 1)%Z; [by eexists|].
      destruct (map_result_Err (λ img, skimage img sigma) _ img Himg Herr) as [e ->].
      by eexists.
Qed.

(** C10. On the adaptive path the buffer of the caller's stack is never
    written: the only copy the call makes goes from that buffer to the
    fresh segment, and after the call, whether it returned or raised, the
    stack holds what it held before. *)
Theorem input_stack_unchanged
    ct air_pixels sigma max_workers tqdm_class (w w' : world A) r :
  (air_pixels < 0)%Z → buf ct ∈ dom (heap w) →
  ifc ct air_pixels sigma max_workers tqdm_class w = (w', r) →
  heap w' !! buf ct = heap w !! buf ct ∧ load w' ct = load w ct ∧
  ∃ evs, log w' = log w ++ evs ∧
    ∀ dst src, EvCopyTo dst src ∈ evs → src = buf ct ∧ dst ≠ buf ct.
Proof using Type.
  intros Hair Hct Hrun.
  assert (fresh (dom (heap w)) ≠ buf ct) as Hfresh.
  { intros Heq. rewrite <- Heq in Hct. by apply is_fresh in Hct. }
  destruct (ifc_adaptive_run ct air_pixels sigma max_workers tqdm_class w Hair)
    as [(_ & _ & Hr) | [(_ & Hr) | (n & rest & Hshape & _ & _ & _ & Hr)]];
    rewrite Hr in Hrun; injection Hrun as <- <-; simpl;
    (split; [done|]); (split; [done|]).
  - exists []. split; [by rewrite app_nil_r|].
    intros dst src Hin. by apply elem_of_nil in Hin.
  - eexists. split; [done|]. intros dst src Hin.
    repeat (apply elem_of_cons in Hin as [|Hin]; [done|]).
    by apply elem_of_nil in Hin.
  - eexists. split; [done|]. intros dst src Hin.
    do 2 (apply elem_of_cons in Hin as [|Hin]; [done|]).
    apply elem_of_cons in Hin as [[= -> ->]|Hin]; [done|].
    repeat (apply elem_of_cons in Hin as [|Hin]; [done|]).
    by apply elem_of_nil in Hin.
Qed.

(** A single 2-d image on the adaptive path: its rows go to the workers
    as 1-d images, and the call raises. *)
Lemma adaptive_rank2_raises ct H W air_pixels sigma max_workers tqdm_class (w : world A) :
  ref_shape ct = [H; W] → (air_pixels < 0)%Z →
  is_Err (ifc ct air_pixels sigma max_workers tqdm_class w).2.
Proof using Type.
  intros Hct Hair.
  destruct (ifc_adaptive_run ct air_pixels sigma max_workers tqdm_class w Hair)
    as [(_ & _ & ->) | [(_ & ->) | (n & rest & Hshape & Hn & _ & _ & ->)]];
    simpl; [by eexists | by eexists |].
  rewrite Hct in Hshape. injection Hshape as <- <-.
  destruct (max_workers <=? 0)%Z; [by eexists|].
  destruct (calculate_chunksize H max_workers <? 1)%Z; [by eexists|].
  destruct (lookup_lt_is_Some_2 (shm_frames w ct H [W]) 0) as [img Himg].
  { unfold shm_frames. rewrite length_fmap, length_chunks. lia. }
  assert (ndim img ≠ 2) as Hnd.
  { unfold shm_frames in Himg. rewrite list_lookup_fmap in Himg.
    destruct (chunks _ _ _ !! 0); [|done]. by injection Himg as <-. }
  destruct (map_result_Err (λ img, skimage img sigma) _ img
              (list_elem_of_lookup_2 _ _ _ Himg)
              (skimage_not_2d astype mean true_divide canny img sigma Hnd)) as [e ->].
  by eexists.
Qed.

End dispatcher_run.

(** ** The claims on concrete stacks of float64 *)

Import Float64Stack.

Lemma canny_mask_contract {X} mask : canny_contract (Float64.canny_mask (X:=X) mask).
Proof.
  intros image sigma edge. unfold Float64.canny_mask.
  destruct (decide _) as [(Hnd & Hsz & Hshape & Hlen)|]; [|done].
  intros [= <-]. done.
Qed.

Lemma canny_flat_contract {X} : canny_contract (Float64.canny_flat (X:=X)).
Proof.
  intros image sigma edge. unfold Float64.canny_flat.
  destruct (decide _) as [(Hnd & Hsz)|]; [|done].
  intros [= <-]. repeat split; try done.
  unfold wf, size. simpl. by rewrite length_replicate.
Qed.

Lemma calculate_chunksize_pos n max_workers :
  1 ≤ n → (1 ≤ max_workers)%Z → (1 ≤ calculate_chunksize n max_workers)%Z.
Proof. intros _ _. unfold calculate_chunksize. lia. Qed.

Lemma object_mask_first_edge :
  first_edge_at [false; false; true; false; false; true; false; false] 2.
Proof.
  split; [done|]. intros j Hj. destruct j as [|[|j]]; [done | done | lia].
Qed.

Lemma object_mask_last_edge :
  last_edge_at [false; false; true; false; false; true; false; false] 5.
Proof.
  split; [done|]. intros j Hj.
  do 8 (destruct j as [|j]; [done || lia|]). done.
Qed.

(** C5 at the image with an object: the bounds are 1 and 6 in the row
    with edges, 1 and 5 in the row without. *)
Lemma row_bounds_invariant_witness :
  ∃ start_cols stop_cols,
    air_region_bounds object_mask object_image = Ok (start_cols, stop_cols) ∧
    length start_cols = 2 ∧ length stop_cols = 2 ∧
    ∀ i, i < 2 → ∃ s e,
      start_cols !! i = Some s ∧ stop_cols !! i = Some e ∧
      (0 ≤ s ∧ s ≤ e ∧ e ≤ Z.of_nat 8)%Z.
Proof.
  apply (row_bounds_invariant (Float64.canny_mask object_mask)
           (canny_mask_contract _) object_image 3 object_mask 2 8).
  - reflexivity.
  - vm_compute. reflexivity.
Defined.

Example object_image_bounds :
  air_region_bounds object_mask object_image = Ok ([1; 1]%Z, [6; 5]%Z).
Proof. vm_compute. reflexivity. Qed.

(** C4 at the first row of the image with an object: first edge pixel at
    column 2, last one at column 5, eight columns. *)
Lemma edge_row_bounds_and_pixels_witness :
  ∃ start_cols stop_cols,
    air_region_bounds object_mask object_image = Ok (start_cols, stop_cols) ∧
    start_cols !! 0 = Some (Z.of_nat 2 `div` 2)%Z ∧
    stop_cols !! 0 = Some ((Z.of_nat 5 + Z.of_nat 8) `div` 2)%Z ∧
    collect_air_pixels id object_mask object_image =
      Ok (concat (zip_with (row_left id)
                    [mk_ndarray [8] [2; 2; 8; 8; 8; 8; 2; 2]%float;
                     mk_ndarray [8] [2; 2; 2; 2; 2; 2; 2; 2]%float] start_cols) ++
          concat (zip_with (row_right id)
                    [mk_ndarray [8] [2; 2; 8; 8; 8; 8; 2; 2]%float;
                     mk_ndarray [8] [2; 2; 2; 2; 2; 2; 2; 2]%float] stop_cols)) ∧
    row_left id (mk_ndarray [8] [2; 2; 8; 8; 8; 8; 2; 2]%float) (Z.of_nat 2 `div` 2) =
      id <$> take (2 `div` 2) [2; 2; 8; 8; 8; 8; 2; 2]%float ∧
    row_right id (mk_ndarray [8] [2; 2; 8; 8; 8; 8; 2; 2]%float)
        ((Z.of_nat 5 + Z.of_nat 8) `div` 2) =
      id <$> drop ((5 + 8) `div` 2) [2; 2; 8; 8; 8; 8; 2; 2]%float.
Proof.
  apply (edge_row_bounds_and_pixels id (Float64.canny_mask object_mask)
           (canny_mask_contract _) object_image 3 object_mask 2 8
           [mk_ndarray [8] [false; false; true; false; false; true; false; false];
            mk_ndarray [8] (replicate 8 false)]
           [mk_ndarray [8] [2; 2; 8; 8; 8; 8; 2; 2]%float;
            mk_ndarray [8] [2; 2; 2; 2; 2; 2; 2; 2]%float]
           0
           (mk_ndarray [8] [false; false; true; false; false; true; false; false])
           (mk_ndarray [8] [2; 2; 8; 8; 8; 8; 2; 2]%float) 2 5).
  - reflexivity.
  - vm_compute. reflexivity.
  - reflexivity.
  - reflexivity.
  - reflexivity.
  - reflexivity.
  - exact object_mask_first_edge.
  - exact object_mask_last_edge.
Defined.

(** C9 at the image with an object. *)
Lemma air_pixels_never_empty_witness :
  ∃ start_cols stop_cols rows pixels,
    air_region_bounds object_mask object_image = Ok (start_cols, stop_cols) ∧
    iter_axis0 object_image = Ok rows ∧
    collect_air_pixels id object_mask object_image = Ok pixels ∧
    pixels = concat (zip_with (row_left id) rows start_cols) ++
             concat (zip_with (row_right id) rows stop_cols) ∧
    (∀ i, i < 2 → ∃ row stop_col x,
       rows !! i = Some row ∧ stop_cols !! i = Some stop_col ∧
       (stop_col ≤ Z.of_nat 8 - 1)%Z ∧
       last (data row) = Some x ∧
       last (row_right id row stop_col) = Some (id x)) ∧
    2 ≤ length pixels ∧ pixels ≠ [].
Proof.
  apply (air_pixels_never_empty id (Float64.canny_mask object_mask)
           (canny_mask_contract _) object_image 3 object_mask 2 8).
  - reflexivity.
  - reflexivity.
  - vm_compute. reflexivity.
Defined.

Example object_image_air_pixels :
  collect_air_pixels id object_mask object_image = Ok [2; 2; 2; 2; 2; 2; 2]%float.
Proof. vm_compute. reflexivity. Qed.

(** With the mask made by hand for the answer of the detector, the air
    pixels are all 2.0 and the image is divided by 2.0; with a detector
    that finds no edge, the object reaches into the air pixels and the
    image is divided by 2.75. *)
Example object_image_corrected :
  ifc_skimage (Float64.canny_mask object_mask) object_image 3 =
  Ok (mk_ndarray [2; 8] [1; 1; 4; 4; 4; 4; 1; 1; 1; 1; 1; 1; 1; 1; 1; 1]%float).
Proof. vm_compute. reflexivity. Qed.

Example object_image_without_edges :
  ifc_skimage Float64.canny_flat object_image 3 =
  Ok (divide PrimFloat.div object_image 2.75%float).
Proof. vm_compute. reflexivity. Qed.

(** The mean of ten pixels of value 0.1 (the float64 nearest to it) is
    that value: the pairwise sum of the ten is exactly 1.0, where adding
    them from left to right gives the float64 just below 1.0. *)
Example mean_of_ten_tenths :
  Float64.mean (replicate 10 0x1.999999999999ap-4%float) = 0x1.999999999999ap-4%float ∧
  foldl PrimFloat.add 0%float (replicate 10 0x1.999999999999ap-4%float)
    = 0x1.fffffffffffffp-1%float.
Proof. split; vm_compute; reflexivity. Qed.

(** C1, the claim as the spec words it, at the all-zero image: the two air
    pixels are 0.0, their mean is 0.0, and the correction does not raise;
    it returns an image of NaN. *)
Lemma zero_image_returns_nan :
  collect_air_pixels id (no_edge_mask [2; 3]) zero_image = Ok [0; 0]%float ∧
  Float64.mean [0; 0]%float = 0%float ∧
  ifc_skimage Float64.canny_flat zero_image 3 =
    Ok (mk_ndarray [2; 3] (replicate 6 nan)) ∧
  Float64.isnan nan = true ∧
  ¬ is_Err (ifc_skimage Float64.canny_flat zero_image 3).
Proof.
  split; [vm_compute; reflexivity|]. split; [vm_compute; reflexivity|].
  assert (ifc_skimage Float64.canny_flat zero_image 3 =
          Ok (mk_ndarray [2; 3] (replicate 6 nan))) as Hrun
    by (vm_compute; reflexivity).
  split; [exact Hrun|]. split; [vm_compute; reflexivity|].
  intros [e He]. rewrite Hrun in He. discriminate.
Qed.

(** C1 as the code has it, at the all-zero image. *)
Lemma correction_divides_by_any_factor_witness :
  ∃ pixels,
    collect_air_pixels id (no_edge_mask [2; 3]) zero_image = Ok pixels ∧
    intensity_fluctuation_correction_skimage
      id Float64.mean PrimFloat.div Float64.canny_flat zero_image 3 =
    Ok (divide PrimFloat.div zero_image (Float64.mean pixels)).
Proof.
  apply (correction_divides_by_any_factor id Float64.mean PrimFloat.div
           Float64.canny_flat canny_flat_contract zero_image 3
           (no_edge_mask [2; 3]) 2 3).
  - reflexivity.
  - vm_compute. reflexivity.
Defined.

(** C2, where the code leaves its own comment. On an image without any
    gradient the mask has no edge pixel; both bounds of every row stay at
    the middle column 4 in the contour loop, and nothing is raised. The
    shrink step then moves them to 2 and 7, so the two rows of ten pixels
    give ten air pixels, not twenty; in a row 0.0 .. 9.0 under a mask
    without edge pixels, the pixels of the columns 0, 1, 7, 8 and 9. *)
Theorem edge_free_row_is_not_whole_row :
  Float64.canny_flat flat_image 3 = Ok (no_edge_mask [2; 10]) ∧
  contour_bounds (no_edge_mask [2; 10]) = Ok ([4; 4]%Z, [4; 4]%Z) ∧
  air_region_bounds (no_edge_mask [2; 10]) flat_image = Ok ([2; 2]%Z, [7; 7]%Z) ∧
  (length <$> collect_air_pixels id (no_edge_mask [2; 10]) flat_image) = Ok 10 ∧
  collect_air_pixels id (no_edge_mask [1; 10]) ramp_image = Ok [0; 1; 7; 8; 9]%float.
Proof. repeat split; vm_compute; reflexivity. Qed.

(** C3 on a 1-d and on a 4-d array, for both signs of [air_pixels], and on a
    stack of two frames. *)
Lemma dispatch_policy_witness :
  let w := stack_world 2 zero_image in
  let ct := stack_ref 2 zero_image in
  ifc Float64.canny_flat (mk_array_ref 0 [12]) 5 3 2 None w = (w, Err ValueError) ∧
  ifc Float64.canny_flat (mk_array_ref 0 [1; 2; 2; 3]) (-1) 3 2 None w
    = (w, Err ValueError) ∧
  log (ifc Float64.canny_flat ct 0 3 2 None w).1 = log w ++ [EvNormalizeBg 0 2] ∧
  ∃ evs,
    log (ifc Float64.canny_flat ct (-1) 3 2 None w).1 = log w ++ EvManagerStart :: evs ∧
    ∀ air ncore, EvNormalizeBg air ncore ∉ evs.
Proof.
  intros w ct.
  pose proof (dispatch_policy id Float64.mean PrimFloat.div Float64.canny_flat
                0%float 8 calculate_chunksize normalize_bg
                (mk_array_ref 0 [12]) 5 3 2 (@None unit) w) as [Hrank1 _].
  pose proof (dispatch_policy id Float64.mean PrimFloat.div Float64.canny_flat
                0%float 8 calculate_chunksize normalize_bg
                (mk_array_ref 0 [1; 2; 2; 3]) (-1) 3 2 (@None unit) w) as [Hrank4 _].
  pose proof (dispatch_policy id Float64.mean PrimFloat.div Float64.canny_flat
                0%float 8 calculate_chunksize normalize_bg
                ct 0 3 2 (@None unit) w) as [_ Hfixed].
  pose proof (dispatch_policy id Float64.mean PrimFloat.div Float64.canny_flat
                0%float 8 calculate_chunksize normalize_bg
                ct (-1) 3 2 (@None unit) w) as [_ Hadaptive].
  split; [exact (Hrank1 ltac:(simpl; lia) ltac:(simpl; lia))|].
  split; [exact (Hrank4 ltac:(simpl; lia) ltac:(simpl; lia))|].
  split.
  - exact (proj2 (proj1 (Hfixed (or_intror eq_refl)) ltac:(lia))).
  - exact (proj2 (proj2 (Hadaptive (or_intror eq_refl)) ltac:(lia))).
Defined.

(** C6, where the code leaves its own rank check. A single 2-d image
    passes the check of line 77 (the message reads "must be 2D or 3D"),
    and the per-image correction called on it returns an image of its
    shape. On the adaptive path the list comprehension of line 103 hands
    the image over row by row: the two rows reach the workers as 1-d
    arrays, the first worker raises, and the call raises where the claim
    has an image of the shape of the input come back. *)
Theorem single_image_raises_on_adaptive_path :
  let w := stack_world 1 flat_image in
  let ct := mk_array_ref 0 [2; 10] in
  load w ct = flat_image ∧
  ifc_skimage Float64.canny_flat flat_image 3 = Ok flat_image ∧
  iter_axis0 (load w ct) =
    Ok [mk_ndarray [10] (replicate 10 1%float); mk_ndarray [10] (replicate 10 1%float)] ∧
  ifc_skimage Float64.canny_flat (mk_ndarray [10] (replicate 10 1%float)) 3
    = Err ValueError ∧
  ifc Float64.canny_flat ct (-1) 3 2 None w =
  (mk_world (heap w) ∅ []
     [EvManagerStart; EvShmCreate 1 160; EvCopyTo 1 0; EvProcessMap 2 2 1 false;
      EvShmUnlink 1; EvManagerShutdown],
   Err ValueError).
Proof. repeat split; vm_compute; reflexivity. Qed.

(** C7 with one and with four workers. *)
Lemma worker_count_invariance_witness :
  (ifc (Float64.canny_mask object_mask) (stack_ref 3 object_image) (-1) 3 1 None
     (stack_world 3 object_image)).2 =
  (ifc (Float64.canny_mask object_mask) (stack_ref 3 object_image) (-1) 3 4 None
     (stack_world 3 object_image)).2.
Proof.
  apply (worker_count_invariance id Float64.mean PrimFloat.div
           (Float64.canny_mask object_mask) 0%float 8 calculate_chunksize normalize_bg
           (stack_ref 3 object_image) (-1) 3 4 (@None unit)
           (stack_world 3 object_image)).
  - lia.
  - lia.
  - exact calculate_chunksize_pos.
Defined.

(** C8 on a single 2-d image: every row goes to a worker as a 1-d image,
    the worker raises, and the segment is unlinked all the same. *)
Lemma shared_memory_released_witness :
  let w := stack_world 1 zero_image in
  let ct := mk_array_ref 0 [2; 3] in
  let run := ifc Float64.canny_flat ct (-1) 3 2 None w in
  segments run.1 = segments w ∧ tracked run.1 = tracked w ∧ heap run.1 = heap w ∧
  (∃ evs, log run.1 = log w ++ evs ∧
     ∀ l size, EvShmCreate l size ∈ evs → EvShmUnlink l ∈ evs) ∧
  (∀ imgs img,
     buf ct ∈ dom (heap w) → iter_axis0 (load w ct) = Ok imgs →
     img ∈ imgs → is_Err (ifc_skimage Float64.canny_flat img 3) → is_Err run.2).
Proof.
  intros w ct run.
  apply (shared_memory_released id Float64.mean PrimFloat.div
           Float64.canny_flat 0%float 8 calculate_chunksize normalize_bg
           ct (-1) 3 2 (@None unit) w run.1 run.2).
  - lia.
  - simpl. apply empty_subseteq.
  - apply surjective_pairing.
Defined.

Example worker_failure_run :
  ifc Float64.canny_flat (mk_array_ref 0 [2; 3]) (-1) 3 2 None (stack_world 1 zero_image) =
  (mk_world (heap (stack_world 1 zero_image)) ∅ []
     [EvManagerStart; EvShmCreate 1 48; EvCopyTo 1 0; EvProcessMap 2 2 1 false;
      EvShmUnlink 1; EvManagerShutdown],
   Err ValueError).
Proof. vm_compute. reflexivity. Qed.

(** C10 on a stack of three frames with an object. *)
Lemma input_stack_unchanged_witness :
  let w := stack_world 3 object_image in
  let ct := stack_ref 3 object_image in
  let run := ifc (Float64.canny_mask object_mask) ct (-1) 3 2 None w in
  heap run.1 !! buf ct = heap w !! buf ct ∧ load run.1 ct = load w ct ∧
  ∃ evs, log run.1 = log w ++ evs ∧
    ∀ dst src, EvCopyTo dst src ∈ evs → src = buf ct ∧ dst ≠ buf ct.
Proof.
  intros w ct run.
  apply (input_stack_unchanged id Float64.mean PrimFloat.div
           (Float64.canny_mask object_mask) 0%float 8 calculate_chunksize normalize_bg
           ct (-1) 3 2 (@None unit) w run.1 run.2).
  - lia.
  - simpl. rewrite dom_singleton_L. by apply elem_of_singleton.
  - apply surjective_pairing.
Defined.

(** * Further properties of the correction *)

(** ** The collection of air pixels *)

Lemma length_concat_zip_with_le {X Y Z1 Z2} (f : X → Y → list Z1) (g : X → Y → list Z2)
    W (rows : list X) : ∀ (ss es : list Y),
  length ss = length rows → length es = length rows →
  (∀ i row s e, rows !! i = Some row → ss !! i = Some s → es !! i = Some e →
     length (f row s) + length (g row e) ≤ W) →
  length (concat (zip_with f rows ss)) + length (concat (zip_with g rows es))
    ≤ length rows * W.
Proof.
  induction rows as [|row rows IH]; intros ss es Hs He Hrow; [simpl; lia|].
  destruct ss as [|s ss]; [done|]. destruct es as [|e es]; [done|].
  simpl in *. rewrite !length_app.
  pose proof (Hrow 0 row s e eq_refl eq_refl eq_refl).
  assert (length (concat (zip_with f rows ss)) + length (concat (zip_with g rows es))
            ≤ length rows * W); [|lia].
  apply IH; [lia | lia |].
  intros i row' s' e' Hr Hs' He'. by apply (Hrow (S i)).
Qed.

Section air_pixel_count.
Context {A F : Type}.
Variable astype : A → F.
Variable canny : ndarray A → Z → result (ndarray bool).
Hypothesis canny_ok : canny_contract canny.

(** In every row the pixels taken on the left and the pixels taken on the
    right are a prefix and a suffix of the row that do not overlap: with
    the pixels between the two bounds they make up the row, each pixel
    once. So an image of [H] rows and [W] columns never gives more than
    [H * W] air pixels. *)
Theorem air_pixels_counted_once image sigma edge H W :
  wf image → shape image = [H; W] → canny image sigma = Ok edge →
  ∃ start_cols stop_cols rows pixels,
    air_region_bounds edge image = Ok (start_cols, stop_cols) ∧
    iter_axis0 image = Ok rows ∧
    collect_air_pixels astype edge image = Ok pixels ∧
    (∀ i row s e,
       rows !! i = Some row → start_cols !! i = Some s → stop_cols !! i = Some e →
       row_left astype row s ++
       (astype <$> take (Z.to_nat e - Z.to_nat s) (drop (Z.to_nat s) (data row))) ++
       row_right astype row e = astype <$> data row ∧
       length (row_left astype row s) = Z.to_nat s ∧
       length (row_right astype row e) = W - Z.to_nat e) ∧
    length pixels ≤ H * W.
Proof using canny_ok.
  intros Hwf Hshape Hcanny.
  destruct (bounds_2d canny canny_ok image sigma edge H W Hshape Hcanny)
    as (HH & HW & mask_rows & Hmit & Hmlen & Hmrows & Hb).
  destruct (collection_2d astype canny canny_ok image sigma edge H W _ _ Hshape Hcanny Hb)
    as (rows & Hit & Hlen & Hpixels).
  destruct (rows_2d image H W rows Hwf Hshape Hit) as [_ Hrows].
  set (start_cols := (λ row, (row_contour row (middle_col W)).1 `div` 2)%Z <$> mask_rows) in *.
  set (stop_cols := (λ row, ((row_contour row (middle_col W)).2 + Z.of_nat W) `div` 2)%Z
                      <$> mask_rows) in *.
  assert (∀ i s e, start_cols !! i = Some s → stop_cols !! i = Some e →
            (0 ≤ s ∧ s ≤ e ∧ e ≤ Z.of_nat W - 1)%Z) as Hrange.
  { intros i s e Hs He. unfold start_cols, stop_cols in Hs, He.
    rewrite list_lookup_fmap in Hs, He.
    destruct (mask_rows !! i) as [mask_row|] eqn:Hmrow; [|done].
    injection Hs as <-. injection He as <-.
    destruct (Hmrows i mask_row Hmrow) as [Hrs Hrl].
    pose proof (row_contour_range mask_row W Hrs Hrl HW) as Hc. simpl in Hc.
    exact (shrink_range _ _ (Z.of_nat W) Hc). }
  assert (∀ i row s e,
            rows !! i = Some row → start_cols !! i = Some s → stop_cols !! i = Some e →
            row_left astype row s ++
            (astype <$> take (Z.to_nat e - Z.to_nat s) (drop (Z.to_nat s) (data row))) ++
            row_right astype row e = astype <$> data row ∧
            length (row_left astype row s) = Z.to_nat s ∧
            length (row_right astype row e) = W - Z.to_nat e) as Hparts.
  { intros i row s e Hrow Hs He.
    destruct (Hrange i s e Hs He) as (Hs0 & Hse & HeW).
    destruct (Hrows i row Hrow) as [_ Hrowlen].
    unfold row_left, row_right.
    rewrite slice_to_take, slice_from_drop by lia.
    split; [|split].
    - rewrite <- !fmap_app. f_equal.
      rewrite <- (take_drop (Z.to_nat s) (data row)) at 4. f_equal.
      rewrite <- (take_drop (Z.to_nat e - Z.to_nat s) (drop (Z.to_nat s) (data row))) at 2.
      f_equal. rewrite drop_drop. f_equal. lia.
    - rewrite length_fmap, length_take. lia.
    - rewrite length_fmap, length_drop. lia. }
  eexists start_cols, stop_cols, rows, _.
  split; [exact Hb|]. split; [exact Hit|]. split; [exact Hpixels|].
  split; [exact Hparts|].
  rewrite length_app, <- Hlen.
  apply length_concat_zip_with_le.
  - unfold start_cols. rewrite length_fmap. lia.
  - unfold stop_cols. rewrite length_fmap. lia.
  - intros i row s e Hrow Hs He.
    destruct (Hparts i row s e Hrow Hs He) as (_ & -> & ->).
    destruct (Hrange i s e Hs He) as (Hs0 & Hse & HeW). lia.
Qed.

End air_pixel_count.

(** ** The adaptive path, frame by frame *)

Lemma chunks_concat {X} sz (ds : list (list X)) :
  Forall (λ d, length d = sz) ds → chunks (length ds) sz (concat ds) = ds.
Proof.
  induction 1 as [|d ds Hd _ IH]; [done|]. simpl.
  rewrite take_app_length', drop_app_length' by done. by rewrite IH.
Qed.

Lemma restack {X} shp (rst : list (ndarray X)) :
  Forall (λ o, shape o = shp) rst → mk_ndarray shp <$> (data <$> rst) = rst.
Proof.
  induction 1 as [|o rst Ho _ IH]; [done|]. rewrite !fmap_cons, IH.
  f_equal. destruct o. simpl in Ho. by subst.
Qed.

Lemma length_concat_const {X} sz (ds : list (list X)) :
  Forall (λ d, length d = sz) ds → length (concat ds) = length ds * sz.
Proof.
  induction 1 as [|d ds Hd _ IH]; [done|]. simpl. rewrite length_app. lia.
Qed.

Lemma skimage_length {A F} astype mean true_divide canny (image : ndarray A) sigma
    (out : ndarray F) :
  intensity_fluctuation_correction_skimage astype mean true_divide canny image sigma
    = Ok out →
  length (data out) = length (data image).
Proof.
  unfold intensity_fluctuation_correction_skimage. intros Hrun.
  apply bind_Ok in Hrun as (edge & _ & Hrun).
  apply bind_Ok in Hrun as (pixels & _ & Hrun).
  injection Hrun as <-. simpl. by rewrite length_fmap.
Qed.

Section dispatcher_more.
Context {A F T : Type}.
Variable astype : A → F.
Variable mean : list F → F.
Variable true_divide : A → F → F.
Variable canny : ndarray A → Z → result (ndarray bool).
Variable zero : A.
Variable itemsize : nat.
Variable calculate_chunksize : nat → Z → Z.
Variable normalize_bg :
  gmap loc (list A) → array_ref → Z → Z → gmap loc (list A) * result (ndarray F).
Variable clamp_max_workers : Z → Z.

Let skimage := intensity_fluctuation_correction_skimage astype mean true_divide canny.
Let ifc := _intensity_fluctuation_correction (T:=T) astype mean true_divide canny
             zero itemsize calculate_chunksize normalize_bg.
Let call := intensity_fluctuation_correction__call__ (T:=T) astype mean true_divide
              canny zero itemsize calculate_chunksize normalize_bg clamp_max_workers.

(** The per-image correction raises on every array that is not 2-d,
    whatever the edge detector answers on it. *)
Theorem per_image_correction_needs_2d (image : ndarray A) sigma :
  ndim image ≠ 2 → is_Err (skimage image sigma).
Proof using Type. apply skimage_not_2d. Qed.

(** A stack with a dimension of size 0 is refused on the adaptive path:
    the shared-memory manager is started, no segment can be created for 0
    bytes, the manager is shut down and the call raises. No worker is
    started. *)
Theorem adaptive_empty_stack_refused ct air_pixels sigma max_workers tqdm_class
    (w : world A) :
  (air_pixels < 0)%Z →
  length (ref_shape ct) = 2 ∨ length (ref_shape ct) = 3 →
  prod_list (ref_shape ct) = 0 →
  ifc ct air_pixels sigma max_workers tqdm_class w =
  (mk_world (heap w) (segments w) (tracked w)
     (log w ++ [EvManagerStart; EvManagerShutdown]),
   Err ValueError).
Proof using Type.
  intros Hair Hrank Hempty.
  destruct (ifc_adaptive_run astype mean true_divide canny zero itemsize
              calculate_chunksize normalize_bg ct air_pixels sigma max_workers
              tqdm_class w Hair)
    as [(H2 & H3 & _) | [(_ & Hr) | (n & rest & _ & _ & _ & Hnz & _)]].
  - lia.
  - exact Hr.
  - unfold nbytes in Hnz. rewrite Hempty in Hnz. done.
Qed.

(** On a stack that is not empty and with a pool that can start (at
    least one worker, a chunk size of at least 1), the adaptive path
    returns what correcting the frames one after the other and stacking
    the results returns: the same stack, or the exception of the first
    frame that fails. *)
Theorem adaptive_is_framewise ct n rest air_pixels sigma max_workers tqdm_class
    (w : world A) imgs :
  (air_pixels < 0)%Z →
  ref_shape ct = n :: rest → length rest = 1 ∨ length rest = 2 →
  nbytes itemsize ct ≠ 0 → buf ct ∈ dom (heap w) →
  (1 ≤ max_workers)%Z → (1 ≤ calculate_chunksize n max_workers)%Z →
  iter_axis0 (load w ct) = Ok imgs →
  (ifc ct air_pixels sigma max_workers tqdm_class w).2 =
  (rst <- map_result (λ img, skimage img sigma) imgs ;; np_array rst).
Proof using Type.
  intros Hair Hshape Hrest Hnz Hct Hmw Hchunk Himgs.
  destruct (ifc_adaptive_run astype mean true_divide canny zero itemsize
              calculate_chunksize normalize_bg ct air_pixels sigma max_workers
              tqdm_class w Hair)
    as [(H2 & H3 & _) | [(Hz & _) | (n' & rest' & Hshape' & _ & _ & _ & Hr)]].
  - rewrite Hshape in H2, H3. simpl in *. lia.
  - done.
  - rewrite Hshape in Hshape'. injection Hshape' as <- <-.
    fold ifc in Hr. rewrite Hr. simpl.
    assert ((max_workers <=? 0)%Z = false) as -> by lia.
    assert ((calculate_chunksize n max_workers <? 1)%Z = false) as -> by lia.
    rewrite (shm_frames_load zero itemsize ct n rest w Hshape Hct) in Himgs.
    by injection Himgs as <-.
Qed.

(** When the adaptive path succeeds on a stack of [N] frames, the array
    it returns has [N] frames, and its frame [i] is the per-image
    correction of the frame [i] of the input: frames are corrected
    independently and come back in the order of the input. *)
Theorem corrected_frames_in_order ct N H W air_pixels sigma max_workers tqdm_class
    (w w' : world A) (out : ndarray F) :
  (air_pixels < 0)%Z → ref_shape ct = [N; H; W] →
  wf (load w ct) → buf ct ∈ dom (heap w) →
  ifc ct air_pixels sigma max_workers tqdm_class w = (w', Ok out) →
  ∃ imgs outs,
    iter_axis0 (load w ct) = Ok imgs ∧ iter_axis0 out = Ok outs ∧
    length imgs = N ∧ length outs = N ∧
    Forall2 (λ img o, skimage img sigma = Ok o) imgs outs.
Proof using Type.
  intros Hair Hshape Hwf Hct Hrun.
  destruct (ifc_adaptive_run astype mean true_divide canny zero itemsize
              calculate_chunksize normalize_bg ct air_pixels sigma max_workers
              tqdm_class w Hair)
    as [(_ & _ & Hr) | [(_ & Hr) | (n' & rest' & Hshape' & Hn & _ & _ & Hr)]];
    fold ifc in Hr; rewrite Hr in Hrun; [done | done |].
  rewrite Hshape in Hshape'. injection Hshape' as <- <-.
  injection Hrun as _ Hout.
  apply bind_Ok in Hout as (rst & Hrst & Hout).
  destruct (max_workers <=? 0)%Z; [done|].
  destruct (calculate_chunksize N max_workers <? 1)%Z; [done|].
  pose proof (shm_frames_load zero itemsize ct N [H; W] w Hshape Hct) as Himgs.
  apply map_result_Ok in Hrst.
  match type of Hrst with Forall2 _ ?l _ => set (imgs := l) in * end.
  assert (imgs = mk_ndarray [H; W] <$>
            chunks N (prod_list [H; W]) (default [] (heap w !! buf ct))) as Himgs_eq.
  { unfold iter_axis0, load in Himgs. simpl in Himgs. rewrite Hshape in Himgs.
    by injection Himgs. }
  assert (length imgs = N) as Hlen.
  { rewrite Himgs_eq. by rewrite length_fmap, length_chunks. }
  assert (Forall (λ img : ndarray A,
                    shape img = [H; W] ∧ length (data img) = prod_list [H; W]) imgs)
    as Hframes.
  { apply Forall_lookup_2. intros i img Himg.
    rewrite Himgs_eq, list_lookup_fmap in Himg.
    destruct (chunks _ _ _ !! i) as [c|] eqn:Hc; [|done]. injection Himg as <-.
    split; [done|]. simpl. eapply length_chunk; [|exact Hc].
    unfold wf, size, load in Hwf. simpl in Hwf. rewrite Hshape in Hwf. exact Hwf. }
  assert (Forall (λ o : ndarray F,
                    shape o = [H; W] ∧ length (data o) = prod_list [H; W]) rst) as Houts.
  { apply Forall_lookup_2. intros i o Ho.
    destruct (Forall2_lookup_r _ _ _ _ _ Hrst Ho) as (img & Himg & Hok).
    destruct (Forall_lookup_1 _ _ _ _ Hframes Himg) as [Hs Hl].
    by rewrite (skimage_shape _ _ _ _ _ _ _ Hok), (skimage_length _ _ _ _ _ _ _ Hok). }
  assert (length rst = N) as Hlen'.
  { by rewrite <- (Forall2_length _ _ _ Hrst). }
  rewrite (np_array_same_shape rst [H; W]) in Hout.
  2:{ intros ->. simpl in Hlen'. lia. }
  2:{ eapply Forall_impl; [exact Houts|]. by intros o [Hs _]. }
  injection Hout as <-.
  exists imgs, rst. split; [exact Himgs|]. split.
  - unfold iter_axis0. simpl.
    rewrite <- (length_fmap data rst), chunks_concat.
    + f_equal. apply restack. eapply Forall_impl; [exact Houts|]. by intros o [Hs _].
    + apply Forall_fmap. eapply Forall_impl; [exact Houts|]. by intros o [_ Hl].
  - done.
Qed.

(** The run of a successful call on a stack: the frames that the workers
    receive and the arrays that they return. *)
Lemma adaptive_success_run ct N H W air_pixels sigma max_workers tqdm_class
    (w w' : world A) (out : ndarray F) :
  (air_pixels < 0)%Z → ref_shape ct = [N; H; W] →
  wf (load w ct) → buf ct ∈ dom (heap w) →
  ifc ct air_pixels sigma max_workers tqdm_class w = (w', Ok out) →
  ∃ imgs rst,
    iter_axis0 (load w ct) = Ok imgs ∧ length imgs = N ∧
    Forall (λ img : ndarray A,
              shape img = [H; W] ∧ length (data img) = prod_list [H; W]) imgs ∧
    Forall2 (λ img o, skimage img sigma = Ok o) imgs rst ∧
    out = mk_ndarray [N; H; W] (concat (data <$> rst)).
Proof using Type.
  intros Hair Hshape Hwf Hct Hrun.
  destruct (ifc_adaptive_run astype mean true_divide canny zero itemsize
              calculate_chunksize normalize_bg ct air_pixels sigma max_workers
              tqdm_class w Hair)
    as [(_ & _ & Hr) | [(_ & Hr) | (n' & rest' & Hshape' & Hn & _ & _ & Hr)]];
    fold ifc in Hr; rewrite Hr in Hrun; [done | done |].
  rewrite Hshape in Hshape'. injection Hshape' as <- <-.
  injection Hrun as _ Hout.
  apply bind_Ok in Hout as (rst & Hrst & Hout).
  destruct (max_workers <=? 0)%Z; [done|].
  destruct (calculate_chunksize N max_workers <? 1)%Z; [done|].
  pose proof (shm_frames_load zero itemsize ct N [H; W] w Hshape Hct) as Himgs.
  apply map_result_Ok in Hrst.
  match type of Hrst with Forall2 _ ?l _ => set (imgs := l) in * end.
  assert (imgs = mk_ndarray [H; W] <$>
            chunks N (prod_list [H; W]) (default [] (heap w !! buf ct))) as Himgs_eq.
  { unfold iter_axis0, load in Himgs. simpl in Himgs. rewrite Hshape in Himgs.
    by injection Himgs. }
  assert (length imgs = N) as Hlen.
  { rewrite Himgs_eq. by rewrite length_fmap, length_chunks. }
  assert (Forall (λ img : ndarray A,
                    shape img = [H; W] ∧ length (data img) = prod_list [H; W]) imgs)
    as Hframes.
  { apply Forall_lookup_2. intros i img Himg.
    rewrite Himgs_eq, list_lookup_fmap in Himg.
    destruct (chunks _ _ _ !! i) as [c|] eqn:Hc; [|done]. injection Himg as <-.
    split; [done|]. simpl. eapply length_chunk; [|exact Hc].
    unfold wf, size, load in Hwf. simpl in Hwf. rewrite Hshape in Hwf. exact Hwf. }
  assert (length rst = N) as Hlen'.
  { by rewrite <- (Forall2_length _ _ _ Hrst). }
  rewrite (np_array_same_shape rst [H; W]) in Hout.
  2:{ intros ->. simpl in Hlen'. lia. }
  2:{ apply Forall_lookup_2. intros i o Ho.
      destruct (Forall2_lookup_r _ _ _ _ _ Hrst Ho) as (img & Himg & Hok).
      destruct (Forall_lookup_1 _ _ _ _ Hframes Himg) as [Hs _].
      by rewrite (skimage_shape _ _ _ _ _ _ _ Hok). }
  injection Hout as <-. rewrite Hlen'.
  by exists imgs, rst.
Qed.

(** What the workers return is each frame divided by a factor of its
    own. *)
Lemma corrected_by_factors (imgs : list (ndarray A)) sigma (rst : list (ndarray F)) :
  Forall2 (λ img o, skimage img sigma = Ok o) imgs rst →
  ∃ factors,
    length factors = length imgs ∧ rst = zip_with (divide true_divide) imgs factors.
Proof using Type.
  induction 1 as [|img o imgs rst Hok _ (factors & Hlen & ->)].
  - by exists [].
  - unfold skimage, intensity_fluctuation_correction_skimage in Hok.
    apply bind_Ok in Hok as (edge & _ & Hok).
    apply bind_Ok in Hok as (pixels & _ & Hok). injection Hok as <-.
    exists (mean pixels :: factors). simpl. by rewrite Hlen.
Qed.

(** On the adaptive path, a correction that succeeds on a stack of [N]
    frames of [H] x [W] pixels returns an array of the shape of the
    input, with as many elements as this shape announces, whose frames
    are the frames of the input, each divided pixel by pixel by a factor
    of its own. *)
Theorem adaptive_stack_keeps_shape ct N H W air_pixels sigma max_workers tqdm_class
    (w w' : world A) (out : ndarray F) :
  (air_pixels < 0)%Z → ref_shape ct = [N; H; W] →
  wf (load w ct) → buf ct ∈ dom (heap w) →
  ifc ct air_pixels sigma max_workers tqdm_class w = (w', Ok out) →
  shape out = shape (load w ct) ∧ wf out ∧
  ∃ imgs factors,
    iter_axis0 (load w ct) = Ok imgs ∧ length imgs = N ∧ length factors = N ∧
    iter_axis0 out = Ok (zip_with (divide true_divide) imgs factors).
Proof using Type.
  intros Hair Hshape Hwf Hct Hrun.
  destruct (adaptive_success_run ct N H W air_pixels sigma max_workers tqdm_class
              w w' out Hair Hshape Hwf Hct Hrun)
    as (imgs & rst & Himgs & Hlen & Hframes & Hrst & ->).
  destruct (corrected_by_factors imgs sigma rst Hrst) as (factors & Hfactors & ->).
  assert (Forall (λ o : ndarray F,
                    shape o = [H; W] ∧ length (data o) = prod_list [H; W])
                 (zip_with (divide true_divide) imgs factors)) as Houts.
  { apply Forall_lookup_2. intros i o Ho.
    apply lookup_zip_with_Some in Ho as (img & f & -> & Himg & _).
    destruct (Forall_lookup_1 _ _ _ _ Hframes Himg) as [Hs Hl].
    split; [exact Hs|]. simpl. by rewrite length_fmap. }
  assert (length (zip_with (divide true_divide) imgs factors) = N) as Hlen'.
  { rewrite length_zip_with_l_eq; [exact Hlen | by rewrite Hfactors]. }
  split; [by rewrite <- Hshape|]. split.
  - unfold wf, size. cbn [shape data].
    rewrite (length_concat_const (prod_list [H; W])).
    + by rewrite length_fmap, Hlen'.
    + apply Forall_fmap. eapply Forall_impl; [exact Houts|]. by intros o [_ Hl].
  - exists imgs, factors. split; [exact Himgs|]. split; [exact Hlen|].
    split; [by rewrite Hfactors|].
    unfold iter_axis0. cbn [shape data].
    replace N with (length (data <$> zip_with (divide true_divide) imgs factors))
      at 1 by (by rewrite length_fmap).
    rewrite chunks_concat.
    + f_equal. apply restack. eapply Forall_impl; [exact Houts|]. by intros o [Hs _].
    + apply Forall_fmap. eapply Forall_impl; [exact Houts|]. by intros o [_ Hl].
Qed.

Lemma adaptive_result_any_workers ct air_pixels sigma m1 m2 tqdm_class (w : world A) :
  (air_pixels < 0)%Z → (1 ≤ m1)%Z → (1 ≤ m2)%Z →
  (∀ n m, 1 ≤ n → (1 ≤ m)%Z → (1 ≤ calculate_chunksize n m)%Z) →
  (ifc ct air_pixels sigma m1 tqdm_class w).2 =
  (ifc ct air_pixels sigma m2 tqdm_class w).2.
Proof using Type.
  intros Hair Hm1 Hm2 Hchunk.
  destruct (ifc_adaptive_run astype mean true_divide canny zero itemsize
              calculate_chunksize normalize_bg ct air_pixels sigma m1 tqdm_class w Hair)
    as [(H2 & H3 & Hr) | [(Hz & Hr) | (n & rest & Hshape & Hn & Hrest & Hnz & Hr)]];
    fold ifc in Hr; rewrite Hr;
  destruct (ifc_adaptive_run astype mean true_divide canny zero itemsize
              calculate_chunksize normalize_bg ct air_pixels sigma m2 tqdm_class w Hair)
    as [(H2' & H3' & Hr') | [(Hz' & Hr') |
        (n' & rest' & Hshape' & Hn' & Hrest' & Hnz' & Hr')]];
    fold ifc in Hr'; rewrite Hr';
    simpl; try done;
    try (rewrite Hshape in *; simpl in *; lia);
    try (rewrite Hshape' in *; simpl in *; lia).
  rewrite Hshape in Hshape'. injection Hshape' as <- <-.
  assert ((m1 <=? 0)%Z = false) as -> by lia.
  assert ((m2 <=? 0)%Z = false) as -> by lia.
  pose proof (Hchunk n m1 Hn Hm1). pose proof (Hchunk n m2 Hn Hm2).
  assert ((calculate_chunksize n m1 <? 1)%Z = false) as -> by lia.
  by assert ((calculate_chunksize n m2 <? 1)%Z = false) as -> by lia.
Qed.

(** Through the entry point the number of workers asked for, 0 for all
    cores included, has no part in what the adaptive path returns, as long
    as the two helpers that are not among the sources do what their names
    say: the clamped number of workers is at least 1 and so is the chunk
    size. *)
Theorem entry_point_ignores_worker_count ct air_pixels sigma m1 m2 tqdm_class
    (w : world A) :
  (air_pixels < 0)%Z → (0 ≤ m1)%Z → (0 ≤ m2)%Z →
  (∀ m, (0 ≤ m)%Z → (1 ≤ clamp_max_workers m)%Z) →
  (∀ n m, 1 ≤ n → (1 ≤ m)%Z → (1 ≤ calculate_chunksize n m)%Z) →
  (call ct air_pixels sigma m1 tqdm_class w).2 =
  (call ct air_pixels sigma m2 tqdm_class w).2.
Proof using Type.
  intros Hair Hm1 Hm2 Hclamp Hchunk.
  unfold call, intensity_fluctuation_correction__call__.
  pose proof (Hclamp m1 Hm1). pose proof (Hclamp m2 Hm2).
  assert ((m1 <? 0)%Z = false) as -> by lia.
  assert ((m2 <? 0)%Z = false) as -> by lia.
  assert ((clamp_max_workers m1 <? 0)%Z = false) as -> by lia.
  assert ((clamp_max_workers m2 <? 0)%Z = false) as -> by lia.
  by apply adaptive_result_any_workers.
Qed.

End dispatcher_more.

(** ** The further properties on concrete stacks *)

Lemma air_pixels_counted_once_witness :
  ∃ start_cols stop_cols rows pixels,
    air_region_bounds object_mask object_image = Ok (start_cols, stop_cols) ∧
    iter_axis0 object_image = Ok rows ∧
    collect_air_pixels id object_mask object_image = Ok pixels ∧
    (∀ i row s e,
       rows !! i = Some row → start_cols !! i = Some s → stop_cols !! i = Some e →
       row_left id row s ++
       (id <$> take (Z.to_nat e - Z.to_nat s) (drop (Z.to_nat s) (data row))) ++
       row_right id row e = id <$> data row ∧
       length (row_left id row s) = Z.to_nat s ∧
       length (row_right id row e) = 8 - Z.to_nat e) ∧
    length pixels ≤ 2 * 8.
Proof.
  apply (air_pixels_counted_once id (Float64.canny_mask object_mask)
           (canny_mask_contract _) object_image 3 object_mask 2 8).
  - reflexivity.
  - reflexivity.
  - vm_compute. reflexivity.
Defined.

Lemma per_image_correction_needs_2d_witness :
  is_Err (ifc_skimage Float64.canny_flat (mk_ndarray [3] [1; 2; 3]%float) 3).
Proof.
  apply (per_image_correction_needs_2d id Float64.mean PrimFloat.div
           Float64.canny_flat (mk_ndarray [3] [1; 2; 3]%float) 3).
  unfold ndim. simpl. lia.
Defined.

Lemma adaptive_rank2_raises_witness :
  is_Err (ifc Float64.canny_flat (mk_array_ref 0 [2; 3]) (-1) 3 2 None
            (stack_world 1 zero_image)).2.
Proof.
  apply (adaptive_rank2_raises id Float64.mean PrimFloat.div Float64.canny_flat
           0%float 8 calculate_chunksize normalize_bg
           (mk_array_ref 0 [2; 3]) 2 3 (-1) 3 2 (@None unit) (stack_world 1 zero_image)).
  - reflexivity.
  - lia.
Defined.

Lemma adaptive_empty_stack_refused_witness :
  let w := stack_world 0 zero_image in
  ifc Float64.canny_flat (stack_ref 0 zero_image) (-1) 3 2 None w =
  (mk_world (heap w) (segments w) (tracked w)
     (log w ++ [EvManagerStart; EvManagerShutdown]),
   Err ValueError).
Proof.
  intros w.
  apply (adaptive_empty_stack_refused id Float64.mean PrimFloat.div Float64.canny_flat
           0%float 8 calculate_chunksize normalize_bg
           (stack_ref 0 zero_image) (-1) 3 2 (@None unit) w).
  - lia.
  - right. reflexivity.
  - reflexivity.
Defined.

Lemma adaptive_is_framewise_witness :
  (ifc (Float64.canny_mask object_mask) (stack_ref 3 object_image) (-1) 3 2 None
     (stack_world 3 object_image)).2 =
  (rst <- map_result (λ img, ifc_skimage (Float64.canny_mask object_mask) img 3)
            (replicate 3 object_image) ;;
   np_array rst).
Proof.
  apply (adaptive_is_framewise id Float64.mean PrimFloat.div
           (Float64.canny_mask object_mask) 0%float 8 calculate_chunksize normalize_bg
           (stack_ref 3 object_image) 3 [2; 8] (-1) 3 2 (@None unit)
           (stack_world 3 object_image) (replicate 3 object_image)).
  - lia.
  - reflexivity.
  - right. reflexivity.
  - vm_compute. lia.
  - simpl. rewrite dom_singleton_L. by apply elem_of_singleton.
  - lia.
  - vm_compute. discriminate.
  - vm_compute. reflexivity.
Defined.

Lemma corrected_frames_in_order_witness :
  let w := stack_world 3 object_image in
  let ct := stack_ref 3 object_image in
  let run := ifc (Float64.canny_mask object_mask) ct (-1) 3 2 None w in
  ∃ imgs outs,
    iter_axis0 (load w ct) = Ok imgs ∧
    iter_axis0 (mk_ndarray [3; 2; 8]
                  (concat (replicate 3
                     [1; 1; 4; 4; 4; 4; 1; 1; 1; 1; 1; 1; 1; 1; 1; 1]%float))) = Ok outs ∧
    length imgs = 3 ∧ length outs = 3 ∧
    Forall2 (λ img o, ifc_skimage (Float64.canny_mask object_mask) img 3 = Ok o) imgs outs.
Proof.
  intros w ct run.
  apply (corrected_frames_in_order id Float64.mean PrimFloat.div
           (Float64.canny_mask object_mask) 0%float 8 calculate_chunksize normalize_bg
           ct 3 2 8 (-1) 3 2 (@None unit) w run.1).
  - lia.
  - reflexivity.
  - reflexivity.
  - simpl. rewrite dom_singleton_L. by apply elem_of_singleton.
  - vm_compute. reflexivity.
Defined.

Lemma adaptive_stack_keeps_shape_witness :
  let w := stack_world 3 object_image in
  let ct := stack_ref 3 object_image in
  let run := ifc Float64.canny_flat ct (-1) 3 2 None w in
  let out := mk_ndarray [3; 2; 8]
               (concat (replicate 3 (data (divide PrimFloat.div object_image 2.75%float)))) in
  shape out = shape (load w ct) ∧ wf out ∧
  ∃ imgs factors,
    iter_axis0 (load w ct) = Ok imgs ∧ length imgs = 3 ∧ length factors = 3 ∧
    iter_axis0 out = Ok (zip_with (divide PrimFloat.div) imgs factors).
Proof.
  intros w ct run out.
  apply (adaptive_stack_keeps_shape id Float64.mean PrimFloat.div
           Float64.canny_flat 0%float 8 calculate_chunksize normalize_bg
           ct 3 2 8 (-1) 3 2 (@None unit) w run.1 out).
  - lia.
  - reflexivity.
  - reflexivity.
  - simpl. rewrite dom_singleton_L. by apply elem_of_singleton.
  - vm_compute. reflexivity.
Defined.

Lemma clamp_max_workers_pos m : (0 ≤ m)%Z → (1 ≤ Float64Entry.clamp_max_workers 8 m)%Z.
Proof. intros Hm. unfold Float64Entry.clamp_max_workers. destruct (m <=? 0)%Z eqn:?; lia. Qed.

Lemma entry_point_ignores_worker_count_witness :
  (Float64Entry.call (Float64.canny_mask object_mask) (stack_ref 3 object_image)
     (-1) 3 0 None (stack_world 3 object_image)).2 =
  (Float64Entry.call (Float64.canny_mask object_mask) (stack_ref 3 object_image)
     (-1) 3 3 None (stack_world 3 object_image)).2.
Proof.
  apply (entry_point_ignores_worker_count id Float64.mean PrimFloat.div
           (Float64.canny_mask object_mask) 0%float 8 calculate_chunksize normalize_bg
           (Float64Entry.clamp_max_workers 8)
           (stack_ref 3 object_image) (-1) 3 0 3 (@None unit)
           (stack_world 3 object_image)).
  - lia.
  - lia.
  - lia.
  - exact clamp_max_workers_pos.
  - exact calculate_chunksize_pos.
Defined.

(** * Properties of the workflow validator *)

Module ValidateFacts.
Import Validate.

(** ** Function names *)

Lemma join_cons_cons c h t :
  join [dot] ((c :: h) :: t) = c :: join [dot] (h :: t).
Proof. by destruct t. Qed.

(** The parts of a name: all but the last one, and the last one. *)
Lemma split_parts (s : str) :
  ∃ init lst,
    split dot s = init ++ [lst] ∧ (dot ∉ lst) ∧
    (init = [] ↔ dot ∉ s) ∧
    (init = [] → lst = s) ∧
    (init ≠ [] → join [dot] init ++ dot :: lst = s).
Proof.
  induction s as [|c s (init & lst & Hsplit & Hlst & Hnil & Hwhole & Hjoin)].
  - exists [], []. split; [done|]. split; [apply not_elem_of_nil|].
    split; [by split; [intros; apply not_elem_of_nil|]|]. done.
  - simpl. destruct (decide (c = dot)) as [->|Hc].
    + exists ([] :: init), lst. rewrite Hsplit. split; [done|]. split; [done|].
      split; [|split; [done|]].
      * split; [done|]. intros Hno. destruct Hno. apply elem_of_cons. by left.
      * intros _. destruct init as [|i0 init'].
        -- simpl. by rewrite Hwhole.
        -- change (join [dot] ([] :: i0 :: init')) with (dot :: join [dot] (i0 :: init')).
           simpl. f_equal. by apply Hjoin.
    + rewrite Hsplit. destruct init as [|h t]; simpl.
      * exists [], (c :: lst). split; [done|]. split.
        { rewrite not_elem_of_cons. split; [by apply not_eq_sym | done]. }
        split.
        { split; [|done]. intros _. rewrite not_elem_of_cons.
          split; [by apply not_eq_sym|]. by apply Hnil. }
        split; [|done]. intros _. f_equal. by apply Hwhole.
      * exists ((c :: h) :: t), lst. split; [done|]. split; [done|]. split.
        { split; [done|]. intros Hno. apply not_elem_of_cons in Hno as [_ Hno].
          by apply Hnil in Hno. }
        split; [done|]. intros _. rewrite join_cons_cons. simpl. f_equal.
        by apply Hjoin.
Qed.

Lemma function_parts_eq (s : str) init lst :
  split dot s = init ++ [lst] → _function_parts s = (join [dot] init, lst).
Proof.
  intros Hsplit. unfold _function_parts. rewrite Hsplit.
  rewrite length_app. simpl. rewrite Nat.add_sub.
  by rewrite take_app_length, last_snoc.
Qed.

(** The function name that [_function_parts] answers never holds a dot.
    For a name with a dot, the module and the function joined by a dot
    give the name back; for a name without one, the module is empty and
    the function is the whole name. *)
Theorem function_parts_round_trip (func_str : str) :
  let '(mod_str, name) := _function_parts func_str in
  (dot ∉ name) ∧
  (dot ∈ func_str → mod_str ++ dot :: name = func_str) ∧
  (dot ∉ func_str → mod_str = [] ∧ name = func_str).
Proof.
  destruct (split_parts func_str) as (init & lst & Hsplit & Hlst & Hnil & Hwhole & Hjoin).
  rewrite (function_parts_eq func_str init lst Hsplit).
  split; [done|]. split.
  - intros Hdot. apply Hjoin. intros Hinit. by apply Hnil in Hinit.
  - intros Hno. apply Hnil in Hno. subst init. split; [done|]. by apply Hwhole.
Qed.

(** ** The schema *)

Lemma is_valid_string x : is_valid (of_type TyString) x = true ↔ ∃ s, x = JStr s.
Proof. destruct x; simpl; split; try done; try (by intros [? ?]); eauto. Qed.

Lemma is_valid_object x : is_valid (of_type TyObject) x = true ↔ ∃ d, x = JObj d.
Proof. destruct x; simpl; split; try done; try (by intros [? ?]); eauto. Qed.

Lemma is_valid_array x : is_valid (of_type TyArray) x = true ↔ ∃ l, x = JArr l.
Proof. destruct x; simpl; split; try done; try (by intros [? ?]); eauto. Qed.

Lemma present_valid (o : option json) (valid : json → bool) (P : json → Prop) :
  (∀ x, valid x = true ↔ P x) →
  (match o with Some x => valid x | None => true end = true ∧ is_Some o)
  ↔ ∃ x, o = Some x ∧ P x.
Proof.
  intros HP. destruct o as [x|]; split.
  - intros [Hv _]. exists x. split; [done|]. by apply HP.
  - intros (x' & [= <-] & Hx). split; [by apply HP | by eexists].
  - intros [_ [x Hx]]. done.
  - intros (x & Hx & _). done.
Qed.

Lemma absent_or_valid (o : option json) (valid : json → bool) (P : json → Prop) :
  (∀ x, valid x = true ↔ P x) →
  match o with Some x => valid x | None => true end = true
  ↔ o = None ∨ ∃ x, o = Some x ∧ P x.
Proof.
  intros HP. destruct o as [x|]; split.
  - intros Hv. right. exists x. split; [done|]. by apply HP.
  - intros [|(x' & [= <-] & Hx)]; [done|]. by apply HP.
  - by left.
  - done.
Qed.

Lemma is_valid_task task : is_valid TASK_SCHEMA task = true ↔ task_fits task.
Proof.
  destruct task as [| | | | |l|t]; try done.
  unfold TASK_SCHEMA, task_fits, has_str.
  cbn [is_valid forallb].
  rewrite !andb_true_iff, !bool_decide_eq_true.
  pose proof (present_valid (dict_get (py "name") t) _ _ is_valid_string) as Hname.
  pose proof (present_valid (dict_get (py "function") t) _ _ is_valid_string) as Hfun.
  pose proof (present_valid (dict_get (py "inputs") t) _ _ is_valid_object) as Hin.
  pose proof (absent_or_valid (dict_get (py "outputs") t) _ _ is_valid_array) as Hout.
  split.
  - intros (_ & (H1 & H2 & H3 & H4 & _) & (R1 & R2 & R3 & _)).
    destruct (proj1 Hname (conj H1 R1)) as (x1 & E1 & s1 & ->).
    destruct (proj1 Hfun (conj H2 R2)) as (x2 & E2 & s2 & ->).
    destruct (proj1 Hin (conj H3 R3)) as (x3 & E3 & d3 & ->).
    split; [by eexists|]. split; [by eexists|]. split; [by eexists|].
    destruct (proj1 Hout H4) as [|(x4 & E4 & l4 & ->)]; [by left|]. right. by eexists.
  - intros ((s1 & E1) & (s2 & E2) & (d3 & E3) & Hop).
    destruct (proj2 Hname (ex_intro _ _ (conj E1 (ex_intro _ s1 eq_refl)))) as [H1 R1].
    destruct (proj2 Hfun (ex_intro _ _ (conj E2 (ex_intro _ s2 eq_refl)))) as [H2 R2].
    destruct (proj2 Hin (ex_intro _ _ (conj E3 (ex_intro _ d3 eq_refl)))) as [H3 R3].
    assert (match dict_get (py "outputs") t with
            | Some x => is_valid (of_type TyArray) x
            | None => true
            end = true) as H4.
    { apply Hout. destruct Hop as [|(l4 & E4)]; [by left|]. right.
      exists (JArr l4). split; [done|]. by eexists. }
    done.
Qed.

Lemma is_valid_tasks x :
  is_valid (mk_schema (Some TyArray) [] [] (Some TASK_SCHEMA) (Some 1)) x = true ↔
  ∃ tasks, x = JArr tasks ∧ tasks ≠ [] ∧ Forall task_fits tasks.
Proof.
  destruct x as [| | | | |l|t]; cbn [is_valid is_type andb];
    try (split; [done | by intros (? & ? & _)]).
  rewrite andb_true_iff, bool_decide_eq_true, forallb_forall. split.
  - intros [Hall Hlen]. exists l. split; [done|]. split.
    + intros ->. simpl in Hlen. lia.
    + apply Forall_forall. intros task Hin. apply is_valid_task, Hall.
      by apply list_elem_of_In.
  - intros (tasks & [= <-] & Hne & Hall). split.
    + intros task Hin. apply is_valid_task.
      rewrite Forall_forall in Hall. apply Hall. by apply list_elem_of_In.
    + destruct l; [done | simpl; lia].
Qed.

Lemma is_valid_SCHEMA (json_obj : json) :
  is_valid SCHEMA json_obj = true ↔ config_fits json_obj.
Proof.
  unfold config_fits.
  destruct json_obj as [| | | | | |d];
    try (split; [done | by intros (? & ? & ? & _)]).
  unfold SCHEMA, has_str. cbn [is_valid forallb is_type].
  change (λ x : json,
            is_type TyArray x &&
            match x with
            | JArr l => forallb (is_valid TASK_SCHEMA) l && bool_decide (1 ≤ length l)
            | JObj _ => true && true
            | _ => true
            end)
    with (is_valid (mk_schema (Some TyArray) [] [] (Some TASK_SCHEMA) (Some 1))).
  rewrite !andb_true_iff, !bool_decide_eq_true.
  pose proof (present_valid (dict_get (py "instrument") d) _ _ is_valid_string) as P1.
  pose proof (present_valid (dict_get (py "ipts") d) _ _ is_valid_string) as P2.
  pose proof (present_valid (dict_get (py "name") d) _ _ is_valid_string) as P3.
  pose proof (present_valid (dict_get (py "workingdir") d) _ _ is_valid_string) as P4.
  pose proof (present_valid (dict_get (py "outputdir") d) _ _ is_valid_string) as P5.
  pose proof (present_valid (dict_get (py "tasks") d) _ _ is_valid_tasks) as P6.
  split.
  - intros (_ & (H1 & H2 & H3 & H4 & H5 & H6 & _) & (R1 & R2 & R3 & R4 & R5 & R6 & _)).
    destruct (proj1 P1 (conj H1 R1)) as (x1 & E1 & s1 & ->).
    destruct (proj1 P2 (conj H2 R2)) as (x2 & E2 & s2 & ->).
    destruct (proj1 P3 (conj H3 R3)) as (x3 & E3 & s3 & ->).
    destruct (proj1 P4 (conj H4 R4)) as (x4 & E4 & s4 & ->).
    destruct (proj1 P5 (conj H5 R5)) as (x5 & E5 & s5 & ->).
    destruct (proj1 P6 (conj H6 R6)) as (x6 & E6 & tasks & -> & Hne & Hall).
    exists d, tasks. split; [done|].
    repeat (split; [by eexists|]). done.
  - intros (d' & tasks & [= <-] & (s1 & E1) & (s2 & E2) & (s3 & E3) & (s4 & E4) &
            (s5 & E5) & E6 & Hne & Hall).
    destruct (proj2 P1 (ex_intro _ _ (conj E1 (ex_intro _ s1 eq_refl)))) as [H1 R1].
    destruct (proj2 P2 (ex_intro _ _ (conj E2 (ex_intro _ s2 eq_refl)))) as [H2 R2].
    destruct (proj2 P3 (ex_intro _ _ (conj E3 (ex_intro _ s3 eq_refl)))) as [H3 R3].
    destruct (proj2 P4 (ex_intro _ _ (conj E4 (ex_intro _ s4 eq_refl)))) as [H4 R4].
    destruct (proj2 P5 (ex_intro _ _ (conj E5 (ex_intro _ s5 eq_refl)))) as [H5 R5].
    destruct (proj2 P6 (ex_intro _ _ (conj E6
                (ex_intro _ tasks (conj eq_refl (conj Hne Hall)))))) as [H6 R6].
    done.
Qed.

Lemma schema_fits json_obj : _validate_schema json_obj = Return tt → config_fits json_obj.
Proof.
  unfold _validate_schema. destruct (is_valid SCHEMA json_obj) eqn:Hvalid; [|done].
  intros _. by apply is_valid_SCHEMA.
Qed.

(** [_validate_schema] accepts exactly the [dict] that has the five
    settings as strings and, under ["tasks"], a list that is not empty and
    whose items, where they are a [dict], have a name and a function that
    are strings, inputs that are a [dict] and, if any, outputs that are a
    list. Other keys are free, and an item that is not a [dict] is
    accepted as it is. *)
Theorem schema_accepts_iff (json_obj : json) :
  _validate_schema json_obj = Return tt ↔ config_fits json_obj.
Proof.
  rewrite <- is_valid_SCHEMA. unfold _validate_schema.
  by destruct (is_valid SCHEMA json_obj).
Qed.

(** ** The tasks *)

Section tasks.
Variable find_spec : str → str → res bool.
Variable json_loads : str → res json.
Variable json_load_path : str → res json.

Lemma check_task_iff step task :
  check_task find_spec step task = Return tt ↔ task_runs find_spec task.
Proof.
  unfold check_task, task_runs. split.
  - destruct task as [| | | | | |t]; try done. simpl.
    destruct (dict_get (py "function") t) as [[| | | |f| |]|] eqn:Hf; try done. simpl.
    destruct (bool_decide (strip f = [])) eqn:Hempty; [done|].
    destruct (bool_decide (dot ∈ strip f)) eqn:Hdot; [|done]. simpl.
    destruct (_function_exists find_spec (strip f)) as [[|]|] eqn:Hfound; try done.
    intros _. exists t, f.
    apply bool_decide_eq_false in Hempty. apply bool_decide_eq_true in Hdot. done.
  - intros (t & f & -> & Hf & Hempty & Hdot & Hfound). simpl. rewrite Hf. simpl.
    rewrite bool_decide_eq_false_2 by done.
    rewrite bool_decide_eq_true_2 by done. simpl. by rewrite Hfound.
Qed.

Lemma check_tasks_app tasks1 tasks2 :
  check_tasks find_spec (tasks1 ++ tasks2) =
  (_ <~ check_tasks find_spec tasks1 ;; check_tasks find_spec tasks2).
Proof.
  induction tasks1 as [|[step task] tasks1 IH]; [done|]. simpl.
  destruct (check_task find_spec step task); simpl; [apply IH | done].
Qed.

Lemma check_tasks_iff tasks : ∀ k,
  check_tasks find_spec (zip (seq k (length tasks)) tasks) = Return tt ↔
  Forall (task_runs find_spec) tasks.
Proof.
  induction tasks as [|task tasks IH]; intros k; simpl.
  - split; [by constructor | done].
  - rewrite Forall_cons, <- (IH (S k)), <- (check_task_iff k task).
    destruct (check_task find_spec k task) as [[]|e]; simpl.
    + split; [by intros ? | by intros [_ ?]].
    + split; [done | by intros [? _]].
Qed.

(** The run of the loop up to the first task that does not pass. *)
Lemma check_tasks_first_failure good bad rest e :
  Forall (task_runs find_spec) good →
  check_task find_spec (length good) bad = Raise e →
  check_tasks find_spec (enumerate (good ++ bad :: rest)) = Raise e.
Proof.
  intros Hgood Hbad. unfold enumerate.
  rewrite length_app, seq_app, zip_with_app by (by rewrite length_seq).
  rewrite check_tasks_app.
  rewrite (proj2 (check_tasks_iff good 0) Hgood). simpl. by rewrite Hbad.
Qed.

(** For a configuration whose tasks are a list, [_validate_tasks_exist]
    returns exactly when every task is a [dict] whose function, once
    stripped of the white space around it, is not empty, holds a dot and
    is found by [find_spec]. *)
Theorem tasks_exist_iff json_obj tasks :
  subscript json_obj (py "tasks") = Return (JArr tasks) →
  _validate_tasks_exist find_spec json_obj = Return tt ↔
  Forall (task_runs find_spec) tasks.
Proof using Type.
  intros Htasks. unfold _validate_tasks_exist. rewrite Htasks. simpl.
  apply check_tasks_iff.
Qed.

(** The tasks are checked in their order and the check stops at the first
    one that does not pass: its exception is the exception of the call,
    and the step that a message names is the position of that task. *)
Theorem tasks_exist_first_failure json_obj good bad rest e :
  subscript json_obj (py "tasks") = Return (JArr (good ++ bad :: rest)) →
  Forall (task_runs find_spec) good →
  check_task find_spec (length good) bad = Raise e →
  _validate_tasks_exist find_spec json_obj = Raise e.
Proof using Type.
  intros Htasks Hgood Hbad. unfold _validate_tasks_exist. rewrite Htasks. simpl.
  by apply check_tasks_first_failure.
Qed.

Lemma check_task_not_dict step task :
  (∀ t, task ≠ JObj t) → check_task find_spec step task = Raise TypeError.
Proof. intros Hnot. destruct task as [| | | | | |t]; try done. by destruct (Hnot t). Qed.

(** The schema lets through a task that is not a [dict] (a number, a
    string, a list); the task check then asks it for its function, and
    the validation ends with a [TypeError], not with a
    [JSONValidationError]. *)
Theorem non_dict_task_is_type_error json_obj good task rest :
  _validate_schema json_obj = Return tt →
  subscript json_obj (py "tasks") = Return (JArr (good ++ task :: rest)) →
  Forall (task_runs find_spec) good → (∀ t, task ≠ JObj t) →
  _validate find_spec json_obj = Raise TypeError.
Proof using Type.
  intros Hschema Htasks Hgood Hnot. unfold _validate. rewrite Hschema. simpl.
  unfold _validate_tasks_exist. rewrite Htasks. simpl.
  apply check_tasks_first_failure; [done|]. by apply check_task_not_dict.
Qed.

Lemma check_task_errors step t f e :
  dict_get (py "function") t = Some (JStr f) →
  check_task find_spec step (JObj t) = Raise e →
  (∃ msg, e = JSONValidationError msg) ∨
  (∃ name package, find_spec name package = Raise e).
Proof.
  intros Hf. unfold check_task. simpl. rewrite Hf. simpl.
  destruct (bool_decide (strip f = [])); [intros [= <-]; left; by eexists|].
  destruct (bool_decide (dot ∈ strip f)); simpl; [|intros [= <-]; left; by eexists].
  unfold _function_exists.
  destruct (_function_parts (strip f)) as [mod_str name].
  destruct (find_spec mod_str name) as [[|]|e'] eqn:Hfound; simpl.
  - done.
  - intros [= <-]. left. by eexists.
  - intros [= <-]. right. by eexists _, _.
Qed.

Lemma check_tasks_errors tasks e :
  Forall (λ st : nat * json, ∃ t f, st.2 = JObj t ∧
            dict_get (py "function") t = Some (JStr f)) tasks →
  check_tasks find_spec tasks = Raise e →
  (∃ msg, e = JSONValidationError msg) ∨
  (∃ name package, find_spec name package = Raise e).
Proof.
  induction 1 as [|[step task] tasks (t & f & Htask & Hf) _ IH]; [done|].
  simpl in *. subst task.
  destruct (check_task find_spec step (JObj t)) as [[]|e'] eqn:Hcheck; simpl.
  - exact IH.
  - intros [= <-]. by apply (check_task_errors step t f).
Qed.

(** Once the schema has accepted a configuration whose tasks are all
    [dict]s, the task check finds every key it reads: what the validation
    can still raise is a [JSONValidationError] or what [find_spec] itself
    raises, never a [KeyError], a [TypeError] or an [AttributeError]. *)
Theorem validated_tasks_raise_only json_obj tasks e :
  subscript json_obj (py "tasks") = Return (JArr tasks) →
  Forall (λ task, ∃ t, task = JObj t) tasks →
  _validate find_spec json_obj = Raise e →
  (∃ msg, e = JSONValidationError msg) ∨
  (∃ name package, find_spec name package = Raise e).
Proof using Type.
  intros Htasks Hdicts. unfold _validate.
  destruct (_validate_schema json_obj) as [[]|e'] eqn:Hschema; simpl.
  2:{ unfold _validate_schema in Hschema.
      destruct (is_valid SCHEMA json_obj); [done|].
      injection Hschema as <-. intros [= <-]. left. by eexists. }
  apply schema_fits in Hschema as (d & tasks' & -> & _ & _ & _ & _ & _ & Ht & _ & Hfits).
  simpl in Htasks. rewrite Ht in Htasks. injection Htasks as ->.
  unfold _validate_tasks_exist. simpl. rewrite Ht. simpl.
  apply check_tasks_errors.
  apply Forall_lookup_2. intros i [step task] Hst.
  unfold enumerate in Hst. apply lookup_zip_with_Some in Hst as (? & ? & [= <- <-] & _ & Htask).
  destruct (Forall_lookup_1 _ _ _ _ Hdicts Htask) as [t ->].
  destruct (Forall_lookup_1 _ _ _ _ Hfits Htask) as (_ & (f & Hf) & _).
  by exists t, f.
Qed.

(** When [__set__] returns without raising. The descriptor accepts a
    value exactly when [_todict] turns it into a [dict] that fits the
    schema and whose tasks all name a function that [find_spec] finds;
    that [dict] is then what [__get__] answers. A task that is not a
    [dict], which the schema lets through, is refused here. *)
Theorem set_succeeds_iff obj_json v obj_json' :
  JSONValid__set__ find_spec json_loads json_load_path obj_json v
    = (obj_json', Return tt) ↔
  ∃ d tasks,
    _todict json_loads json_load_path v = Return (JObj d) ∧
    JSONValid__get__ obj_json' = Return (JObj d) ∧
    config_fits (JObj d) ∧
    dict_get (py "tasks") d = Some (JArr tasks) ∧
    Forall (task_runs find_spec) tasks.
Proof using Type.
  unfold JSONValid__set__. split.
  - destruct (_todict json_loads json_load_path v) as [j|e]; [|done].
    intros [= <- Hvalid]. unfold _validate in Hvalid.
    destruct (_validate_schema j) as [[]|e] eqn:Hschema; [|done]. simpl in Hvalid.
    pose proof (schema_fits j Hschema) as Hfits.
    destruct Hfits as (d & tasks & -> & H1 & H2 & H3 & H4 & H5 & Ht & Hne & Hall).
    exists d, tasks. split; [done|]. split; [done|].
    split; [by exists d, tasks|]. split; [done|].
    unfold _validate_tasks_exist in Hvalid. simpl in Hvalid. rewrite Ht in Hvalid.
    simpl in Hvalid. by apply check_tasks_iff in Hvalid.
  - intros (d & tasks & -> & Hget & Hfits & Ht & Hall).
    destruct obj_json' as [j|]; [|done]. injection Hget as ->.
    f_equal. unfold _validate, _validate_schema.
    rewrite (proj2 (is_valid_SCHEMA (JObj d)) Hfits). simpl.
    unfold _validate_tasks_exist. simpl. rewrite Ht. simpl.
    by apply check_tasks_iff.
Qed.

End tasks.

(** ** The validator on concrete configurations *)

Lemma function_parts_round_trip_witness :
  let '(mod_str, name) := _function_parts (py "imars3d.backend.dataio.data.load_data") in
  (dot ∉ name) ∧
  (dot ∈ py "imars3d.backend.dataio.data.load_data" →
   mod_str ++ dot :: name = py "imars3d.backend.dataio.data.load_data") ∧
  (dot ∉ py "imars3d.backend.dataio.data.load_data" →
   mod_str = [] ∧ name = py "imars3d.backend.dataio.data.load_data").
Proof. exact (function_parts_round_trip (py "imars3d.backend.dataio.data.load_data")). Defined.

Example function_parts_of_load_data :
  _function_parts (py "imars3d.backend.dataio.data.load_data") =
  (py "imars3d.backend.dataio.data", py "load_data").
Proof. vm_compute. reflexivity. Qed.

Lemma schema_accepts_iff_witness : config_fits (config_with [load_task; JInt 5]).
Proof.
  apply (schema_accepts_iff (config_with [load_task; JInt 5])).
  vm_compute. reflexivity.
Defined.

(** The stand-in for [find_spec] on a module that is known, on one that
    is missing from a known package, on the empty name and on a module
    of a package that is missing. *)
Example find_spec_in_answers :
  find_spec_in known_modules (py "imars3d.backend.dataio.data") (py "load_data")
    = Return true ∧
  find_spec_in known_modules (py "imars3d.backend.nothing") (py "f") = Return false ∧
  find_spec_in known_modules [] (py "f") = Return false ∧
  find_spec_in known_modules (py "nowhere.module") (py "f") = Raise ModuleNotFoundError.
Proof. repeat split; vm_compute; reflexivity. Qed.

Lemma load_task_runs : task_runs (find_spec_in known_modules) load_task.
Proof.
  eexists _, _. split; [reflexivity|]. split; [reflexivity|].
  split; [vm_compute; discriminate|].
  split; [|vm_compute; reflexivity].
  apply (bool_decide_unpack _). vm_compute. exact I.
Qed.

Lemma tasks_exist_iff_witness :
  _validate_tasks_exist (find_spec_in known_modules) (config_with [load_task; load_task])
    = Return tt ↔
  Forall (task_runs (find_spec_in known_modules)) [load_task; load_task].
Proof.
  apply (tasks_exist_iff (find_spec_in known_modules)
           (config_with [load_task; load_task]) [load_task; load_task]).
  vm_compute. reflexivity.
Defined.

Lemma tasks_exist_first_failure_witness :
  _validate_tasks_exist (find_spec_in known_modules)
    (config_with ([load_task] ++ relative_task :: [JInt 5])) =
  Raise (JSONValidationError (NotAbsolute (py "crop"))).
Proof.
  apply (tasks_exist_first_failure (find_spec_in known_modules)
           (config_with ([load_task] ++ relative_task :: [JInt 5]))
           [load_task] relative_task [JInt 5]).
  - vm_compute. reflexivity.
  - constructor; [exact load_task_runs | constructor].
  - vm_compute. reflexivity.
Defined.

Lemma non_dict_task_is_type_error_witness :
  _validate (find_spec_in known_modules) (config_with ([load_task] ++ JInt 5 :: [])) =
  Raise TypeError.
Proof.
  apply (non_dict_task_is_type_error (find_spec_in known_modules)
           (config_with ([load_task] ++ JInt 5 :: [])) [load_task] (JInt 5) []).
  - vm_compute. reflexivity.
  - vm_compute. reflexivity.
  - constructor; [exact load_task_runs | constructor].
  - intros t. discriminate.
Defined.

Lemma validated_tasks_raise_only_witness :
  (∃ msg, JSONValidationError (NotAbsolute (py "crop")) = JSONValidationError msg) ∨
  (∃ name package,
     find_spec_in known_modules name package =
     Raise (JSONValidationError (NotAbsolute (py "crop")))).
Proof.
  apply (validated_tasks_raise_only (find_spec_in known_modules)
           (config_with [load_task; relative_task]) [load_task; relative_task]).
  - vm_compute. reflexivity.
  - repeat constructor; by eexists.
  - vm_compute. reflexivity.
Defined.

Lemma set_succeeds_iff_witness :
  let json_loads := λ _ : str, Raise ValueError in
  let json_load_path := λ _ : str, Raise OSError in
  let good := settings ++ [(py "tasks", JArr [load_task])] in
  ∃ d tasks,
    _todict json_loads json_load_path (VDict good) = Return (JObj d) ∧
    JSONValid__get__ (Some (JObj good)) = Return (JObj d) ∧
    config_fits (JObj d) ∧
    dict_get (py "tasks") d = Some (JArr tasks) ∧
    Forall (task_runs (find_spec_in known_modules)) tasks.
Proof.
  intros json_loads json_load_path good.
  apply (proj1 (set_succeeds_iff (find_spec_in known_modules) json_loads json_load_path
                  None (VDict good) (Some (JObj good)))).
  vm_compute. reflexivity.
Defined.

(** The descriptor refuses a configuration that the schema accepts when
    one of its tasks is not a [dict]. *)
Example set_refuses_task_that_is_no_dict :
  _validate_schema (config_with [load_task; JInt 5]) = Return tt ∧
  JSONValid__set__ (find_spec_in known_modules) (λ _, Raise ValueError)
    (λ _, Raise OSError) None (VDict (settings ++ [(py "tasks", JArr [load_task; JInt 5])]))
  = (Some (config_with [load_task; JInt 5]), Raise TypeError).
Proof. split; vm_compute; reflexivity. Qed.

End ValidateFacts.
